(** * c-scanner: the ignore-rule matcher of [src/main.cpp]

    A shallow embedding of the gitignore-style matcher: the helpers on
    [std::string] ([Trim], [StartsWith], [EndsWith], [NormalizeSlashes],
    [Split]), the wildcard engine ([SegmentMatch], [TokensMatch],
    [WildMatchPath], [GitWildMatch]), the rule compiler
    ([LoadGitignoreSpec]) and the evaluator ([IsIgnored]).

    A [std::string] is a [list ascii]; a [std::vector] is a [list]; [size_t]
    indices are [nat] (no index of the program comes near the wrap-around,
    except [npos], which is modelled by [None]).  Loops whose termination is
    not structural run on fuel; an access outside a container, which the
    C++ code leaves undefined or answers with an exception, is a [Fault]. *)

From Stdlib Require Import Ascii String List Arith Bool Lia.
Import ListNotations.

Set Implicit Arguments.

(** ** Outcomes *)

Inductive res (A : Type) : Type :=
| Ok (a : A)
| Fault
| OutOfFuel.

Arguments Ok {A} a.
Arguments Fault {A}.
Arguments OutOfFuel {A}.

Definition bind {A B : Type} (m : res A) (k : A -> res B) : res B :=
  match m with
  | Ok a => k a
  | Fault => Fault
  | OutOfFuel => OutOfFuel
  end.

Notation "x <- m ;; k" := (bind m (fun x => k))
  (at level 61, m at next level, right associativity).

(** ** Strings *)

Definition str : Type := list ascii.

Definition lit (s : string) : str := list_ascii_of_string s.

Definition str_eqb (a b : str) : bool :=
  if list_eq_dec ascii_dec a b then true else false.

Definition slash : ascii := "/"%char.
Definition backslash : ascii := "\"%char.
Definition star_c : ascii := "*"%char.
Definition quest_c : ascii := "?"%char.
Definition hash_c : ascii := "#"%char.
Definition bang_c : ascii := "!"%char.
Definition LF : ascii := "010"%char.
Definition CR : ascii := "013"%char.
Definition TAB : ascii := "009"%char.
Definition SP : ascii := " "%char.

(** [s.substr(pos)]: throws when [pos > s.size()]. *)
Definition substr_from (s : str) (pos : nat) : res str :=
  if pos <=? length s then Ok (skipn pos s) else Fault.

(** [s.substr(pos, n)]: throws when [pos > s.size()]; [n] is clipped. *)
Definition substr (s : str) (pos n : nat) : res str :=
  if pos <=? length s then Ok (firstn n (skipn pos s)) else Fault.

(** [s.pop_back()]: undefined on the empty string. *)
Definition pop_back (s : str) : res str :=
  match s with
  | [] => Fault
  | _ => Ok (removelast s)
  end.

(** [s.erase(s.begin())]: undefined on the empty string. *)
Definition erase_begin (s : str) : res str :=
  match s with
  | [] => Fault
  | _ :: r => Ok r
  end.

(** [StartsWith(s, prefix)] *)
Definition StartsWith (s prefix : str) : bool :=
  (length prefix <=? length s) && str_eqb (firstn (length prefix) s) prefix.

(** [EndsWith(s, suffix)] *)
Definition EndsWith (s suffix : str) : bool :=
  (length suffix <=? length s) &&
  str_eqb (skipn (length s - length suffix) s) suffix.

Definition is_ws (c : ascii) : bool :=
  (c =? SP)%char || (c =? TAB)%char || (c =? CR)%char || (c =? LF)%char.

(** First loop of [Trim]: [i] advances over the leading white space; the
    argument is the part of the string from [i] on. *)
Fixpoint trim_fwd (rest : str) (i : nat) : nat :=
  match rest with
  | c :: r => if is_ws c then trim_fwd r (S i) else i
  | [] => i
  end.

(** Second loop of [Trim]: [j] retreats while [j > i] and [s[j-1]] is white
    space. *)
Fixpoint trim_back (s : str) (i j : nat) : nat :=
  match j with
  | 0 => 0
  | S j' =>
      if (i <? j) &&
         match nth_error s j' with Some c => is_ws c | None => false end
      then trim_back s i j'
      else j
  end.

Definition Trim (s : str) : res str :=
  let i := trim_fwd s 0 in
  let j := trim_back s i (length s) in
  substr s i (j - i).

(** [NormalizeSlashes] *)
Definition NormalizeSlashes (s : str) : str :=
  map (fun c => if (c =? backslash)%char then slash else c) s.

(** [Split]: [cur] is the token being built. *)
Fixpoint Split_from (cur : str) (s : str) (delim : ascii) : list str :=
  match s with
  | [] => [cur]
  | c :: r =>
      if (c =? delim)%char then cur :: Split_from [] r delim
      else Split_from (cur ++ [c]) r delim
  end.

Definition Split (s : str) (delim : ascii) : list str := Split_from [] s delim.

(** ** The single-segment matcher *)

(** [++star_ti], with [npos] ([None]) wrapping to 0. *)
Definition incr_npos (x : option nat) : nat :=
  match x with
  | Some t => S t
  | None => 0
  end.

(** The closing loop [while (pi < pat.size() && pat[pi] == '*') ++pi;]:
    [rest] is the pattern from [pi] on. *)
Fixpoint skip_stars (rest : str) (pi : nat) : nat :=
  match rest with
  | c :: r => if (c =? star_c)%char then skip_stars r (S pi) else pi
  | [] => pi
  end.

(** The main loop of [SegmentMatch], one iteration per unit of fuel. *)
Fixpoint SegmentMatch_loop (fuel : nat) (pat text : str) (pi ti : nat)
    (star_pi star_ti : option nat) : res bool :=
  match fuel with
  | 0 => OutOfFuel
  | S fuel' =>
      match nth_error text ti with
      | None =>
          (* ti >= text.size(): the loop is left *)
          Ok (skip_stars (skipn pi pat) pi =? length pat)
      | Some tc =>
          let backtrack :=
            match star_pi with
            | Some sp =>
                let st := incr_npos star_ti in
                SegmentMatch_loop fuel' pat text sp st star_pi (Some st)
            | None => Ok false
            end in
          match nth_error pat pi with
          | Some pc =>
              if (pc =? quest_c)%char || (pc =? tc)%char then
                SegmentMatch_loop fuel' pat text (S pi) (S ti) star_pi star_ti
              else if (pc =? star_c)%char then
                SegmentMatch_loop fuel' pat text (S pi) ti (Some (S pi)) (Some ti)
              else backtrack
          | None => backtrack
          end
      end
  end.

(** A bound on the iterations of the loop (see [SegmentMatch_loop_fuel]). *)
Definition segment_fuel (pat text : str) : nat :=
  let m := length pat in
  let n := length text in
  S (((n + 1) * (m + 1) + m) * (n + 1) + n).

Definition SegmentMatch (pat text : str) : res bool :=
  SegmentMatch_loop (segment_fuel pat text) pat text 0 0 None None.

(** ** The segment-sequence matcher *)

(** [for (k = si; k <= stokens.size(); ++k) if (f k) return true;
     return false;] with [n] iterations left. *)
Fixpoint for_k (f : nat -> res bool) (k n : nat) : res bool :=
  match n with
  | 0 => Ok false
  | S n' =>
      b <- f k ;;
      if b : bool then Ok true else for_k f (S k) n'
  end.

Fixpoint TokensMatch_fuel (fuel : nat) (ptokens stokens : list str)
    (pi si : nat) : res bool :=
  match fuel with
  | 0 => OutOfFuel
  | S fuel' =>
      if pi =? length ptokens then Ok (si =? length stokens)
      else
        match nth_error ptokens pi with
        | None => Fault
        | Some p =>
            if str_eqb p (lit "**") then
              for_k (fun k => TokensMatch_fuel fuel' ptokens stokens (S pi) k)
                    si (S (length stokens) - si)
            else if si =? length stokens then Ok false
            else
              match nth_error stokens si with
              | None => Fault
              | Some s =>
                  b <- SegmentMatch p s ;;
                  if negb b then Ok false
                  else TokensMatch_fuel fuel' ptokens stokens (S pi) (S si)
              end
        end
  end.

(** Each call recurses at [pi + 1] only, so [size - pi + 1] levels are
    enough. *)
Definition TokensMatch (ptokens stokens : list str) (pi si : nat) : res bool :=
  TokensMatch_fuel (S (length ptokens - pi)) ptokens stokens pi si.

Definition WildMatchPath (pattern path : str) : res bool :=
  let ptokens := Split pattern slash in
  let stokens := Split path slash in
  TokensMatch ptokens stokens 0 0.

(** ** Rules *)

Record Pattern : Type := mkPattern {
  pattern : str;
  negated : bool;
  dir_only : bool;
  anchored : bool
}.

(** The suffix loop of [GitWildMatch]: [i] is the loop index, [n] the number
    of iterations left. *)
Fixpoint suffix_loop (pat path : str) (i n : nat) : res bool :=
  match n with
  | 0 => Ok false
  | S n' =>
      match nth_error path i with
      | None => Fault
      | Some c =>
          if (c =? slash)%char && (S i <? length path) then
            sub <- substr_from path (S i) ;;
            b <- WildMatchPath pat sub ;;
            if b : bool then Ok true else suffix_loop pat path (S i) n'
          else suffix_loop pat path (S i) n'
      end
  end.

(** The comparison path of [GitWildMatch]. *)
Definition compare_path (p : Pattern) (rel_path : str) : res str :=
  if EndsWith rel_path (lit "/") then
    if negb (dir_only p) then pop_back rel_path else Ok rel_path
  else Ok rel_path.

Definition GitWildMatch (p : Pattern) (rel_path : str) (is_dir : bool)
  : res bool :=
  if dir_only p && negb is_dir then Ok false
  else
    path <- compare_path p rel_path ;;
    if anchored p then WildMatchPath (pattern p) path
    else
      b <- WildMatchPath (pattern p) path ;;
      if b : bool then Ok true
      else suffix_loop (pattern p) path 0 (length path).

(** ** The rule compiler *)

(** [std::getline] over the contents of the stream: a line ends at a line
    feed or at the end of the text; nothing is read after the last line
    feed when no character follows it. *)
Fixpoint getlines_from (cur : str) (s : str) : list str :=
  match s with
  | [] => match cur with [] => [] | _ => [cur] end
  | c :: r =>
      if (c =? LF)%char then cur :: getlines_from [] r
      else getlines_from (cur ++ [c]) r
  end.

Definition getlines (s : str) : list str := getlines_from [] s.

(** [while (!line.empty() && line[0] == '/') line.erase(line.begin());] *)
Fixpoint strip_slashes (line : str) : str :=
  match line with
  | c :: r => if (c =? slash)%char then strip_slashes r else line
  | [] => []
  end.

Definition first_is (c : ascii) (line : str) : bool :=
  match line with
  | c' :: _ => (c' =? c)%char
  | [] => false
  end.

(** The body of the [getline] loop: [None] is [continue], [Some p] is the
    [push_back]. *)
Definition compile_line (line0 : str) : res (option Pattern) :=
  line <- Trim line0 ;;
  match line with
  | [] => Ok None
  | _ =>
      if first_is hash_c line then Ok None
      else
        st <- (if first_is bang_c line then
                 l1 <- erase_begin line ;;
                 l2 <- Trim l1 ;;
                 Ok (true, l2)
               else Ok (false, line)) ;;
        let '(neg, line) := st in
        if neg && match line with [] => true | _ => false end then Ok None
        else
          st <- (if EndsWith line (lit "/") then
                   l <- pop_back line ;; Ok (true, l)
                 else Ok (false, line)) ;;
          let '(dir_only, line) := st in
          let '(anchored, line) :=
            if StartsWith line (lit "/") then (true, strip_slashes line)
            else (false, line) in
          let line := NormalizeSlashes line in
          let dir_only := if str_eqb line (lit "**") then false else dir_only in
          Ok (Some (mkPattern line neg dir_only anchored))
  end.

Fixpoint compile_lines (lines : list str) (acc : list Pattern)
  : res (list Pattern) :=
  match lines with
  | [] => Ok acc
  | l :: rest =>
      r <- compile_line l ;;
      match r with
      | None => compile_lines rest acc
      | Some p => compile_lines rest (acc ++ [p])
      end
  end.

(** [LoadGitignoreSpec]: [file] is the contents of [<root>/.gitignore], or
    [None] when that file does not exist, is not regular or cannot be
    opened. *)
Definition LoadGitignoreSpec (file : option str) : res (list Pattern) :=
  match file with
  | None => Ok []
  | Some text => compile_lines (getlines text) []
  end.

(** ** The evaluator *)

Fixpoint IsIgnored_loop (patterns : list Pattern) (rel_posix : str)
    (is_dir : bool) (matched : bool) : res bool :=
  match patterns with
  | [] => Ok matched
  | p :: rest =>
      b <- GitWildMatch p rel_posix is_dir ;;
      IsIgnored_loop rest rel_posix is_dir
        (if b : bool then negb (negated p) else matched)
  end.

Definition IsIgnored (patterns : list Pattern) (rel_posix : str)
    (is_dir : bool) : res bool :=
  IsIgnored_loop patterns rel_posix is_dir false.

(** Compilation followed by evaluation, for the examples. *)
Definition ignored_by (rules path : string) (is_dir : bool) : res bool :=
  patterns <- LoadGitignoreSpec (Some (lit rules)) ;;
  IsIgnored patterns (lit path) is_dir.

Definition nl : string := String LF EmptyString.

(** ** Invariants, measures and specifications *)

(** The stars remembered by the loop lie behind the two pointers. *)
Definition seg_inv (pat : str) (pi ti : nat) (star_pi star_ti : option nat)
  : Prop :=
  (forall sp, star_pi = Some sp -> sp <= pi /\ sp <= length pat) /\
  (forall st, star_ti = Some st -> st <= ti).

(** Lexicographic measure: the remembered text position, then the
    remembered pattern position, then the text pointer. *)
Definition seg_measure (pat text : str) (ti : nat)
    (star_pi star_ti : option nat) : nat :=
  ((S (length text) - incr_npos star_ti) * (length pat + 1)
   + (length pat - match star_pi with Some sp => sp | None => 0 end))
  * (length text + 1)
  + (length text - ti).

(** "The rule structurally matches", as a boolean. *)
Definition ruleMatches (p : Pattern) (rel_path : str) (is_dir : bool) : bool :=
  match GitWildMatch p rel_path is_dir with
  | Ok b => b
  | _ => false
  end.

(** The negation status of the last matching rule, [false] without one. *)
Definition last_match_wins (patterns : list Pattern) (rel_path : str)
    (is_dir : bool) : bool :=
  match find (fun p => ruleMatches p rel_path is_dir) (rev patterns) with
  | Some p => negb (negated p)
  | None => false
  end.

(** The text whose lines are [ls], each closed by a line feed. *)
Definition unlines (ls : list str) : str :=
  concat (map (fun l => l ++ [LF]) ls).

Definition no_LF (l : str) : Prop := ~ In LF l.

(** The lines that the compiler is to skip: empty after trimming, a
    comment, or a ['!'] followed by white space only. *)
Definition unusable (l : str) : Prop :=
  Trim l = Ok [] \/
  (exists r, Trim l = Ok (hash_c :: r)) \/
  (exists w, l = bang_c :: w /\ Forall (fun c => is_ws c = true) w).

(** The glob language of one segment, as the specification words it:
    ['*'] stands for any run of characters, the empty one included,
    ['?'] for exactly one character, any other character for itself. *)
Fixpoint glob_spec (p : str) (t : str) {struct p} : bool :=
  match p with
  | [] => match t with [] => true | _ :: _ => false end
  | pc :: p' =>
      if (pc =? star_c)%char then
        (fix absorb (t : str) : bool :=
           glob_spec p' t ||
           match t with
           | [] => false
           | _ :: t' => absorb t'
           end) t
      else
        match t with
        | [] => false
        | tc :: t' => ((pc =? quest_c)%char || (pc =? tc)%char) && glob_spec p' t'
        end
  end.

Definition all_stars (p : str) : bool :=
  forallb (fun c => (c =? star_c)%char) p.

Definition count_lit (p : str) : nat :=
  length (filter (fun c => negb (c =? star_c)%char) p).

(** One pattern character that is not a star against one text character. *)
Definition lit_step (pc tc : ascii) : Prop :=
  (pc =? star_c)%char = false /\
  ((pc =? quest_c)%char || (pc =? tc)%char) = true.

(** What the loop of [SegmentMatch] knows at the head of an iteration:
    without a remembered star, the pattern and the text so far matched
    character by character; with one, they did so since the star, and the
    star need not absorb less than up to [star_ti]. *)
Definition glob_inv (pat text : str) (pi ti : nat)
    (star_pi star_ti : option nat) : Prop :=
  pi <= length pat /\
  match star_pi with
  | None => glob_spec pat text = glob_spec (skipn pi pat) (skipn ti text)
  | Some sp =>
      exists st x u,
        star_ti = Some st /\ sp <= length pat /\
        skipn sp pat = x ++ skipn pi pat /\
        skipn st text = u ++ skipn ti text /\
        Forall2 lit_step x u /\
        glob_spec pat text =
          glob_spec (star_c :: skipn sp pat) (skipn st text)
  end.

(** One pattern character against one text character, as the first test of
    the loop sees them. *)
Definition char_ok (pc tc : ascii) : Prop :=
  ((pc =? quest_c)%char || (pc =? tc)%char) = true.

(** The one-sided form of [glob_inv], which holds on every text: a match
    of what is left gives a match of the whole. *)
Definition sound_inv (pat text : str) (pi ti : nat)
    (star_pi star_ti : option nat) : Prop :=
  pi <= length pat /\
  match star_pi with
  | None =>
      glob_spec (skipn pi pat) (skipn ti text) = true ->
      glob_spec pat text = true
  | Some sp =>
      exists x u,
        sp <= length pat /\
        skipn sp pat = x ++ skipn pi pat /\
        skipn (incr_npos star_ti - 1) text = u ++ skipn ti text /\
        Forall2 char_ok x u /\
        (glob_spec (star_c :: skipn sp pat)
                   (skipn (incr_npos star_ti - 1) text) = true ->
         glob_spec pat text = true)
  end.

(** Rules of the examples. *)
Definition rule_a : Pattern := mkPattern (lit "a") false false false.
Definition rule_not_a : Pattern := mkPattern (lit "a") true false false.
Definition rule_b : Pattern := mkPattern (lit "b") false false false.

Definition rule_build_anchored : Pattern :=
  mkPattern (lit "build") false false true.
Definition rule_build : Pattern :=
  mkPattern (lit "build") false false false.

Definition rule_logs : Pattern := mkPattern (lit "logs") false true false.

(** ** Reference functions for the further properties *)

(** The string without its leading white space. *)
Fixpoint drop_ws (s : str) : str :=
  match s with
  | c :: r => if is_ws c then drop_ws r else s
  | [] => []
  end.

(** The string without its trailing white space. *)
Definition drop_ws_end (s : str) : str := rev (drop_ws (rev s)).

Definition all_ws (s : str) : Prop := Forall (fun c => is_ws c = true) s.

(** The tokens put together again, the delimiter between any two. *)
Fixpoint join (delim : ascii) (tokens : list str) : str :=
  match tokens with
  | [] => []
  | t :: rest =>
      match rest with
      | [] => t
      | _ :: _ => t ++ delim :: join delim rest
      end
  end.

(** A pattern without ['*'] against a text, position by position. *)
Fixpoint literal_match (p t : str) : bool :=
  match p, t with
  | [], [] => true
  | pc :: p', tc :: t' =>
      ((pc =? quest_c)%char || (pc =? tc)%char) && literal_match p' t'
  | _, _ => false
  end.

Definition no_star (p : str) : Prop := ~ In star_c p.

Definition no_wildcard (p : str) : Prop := ~ In star_c p /\ ~ In quest_c p.

(** The answer of [SegmentMatch], as a boolean. *)
Definition seg_ok (p s : str) : bool :=
  match SegmentMatch p s with
  | Ok b => b
  | _ => false
  end.

(** The segment-sequence matcher by recursion on the token lists: "**"
    takes any number of leading path tokens, any other pattern token takes
    one that [SegmentMatch] accepts. *)
Fixpoint tokens_spec (ptokens : list str) (stokens : list str)
    {struct ptokens} : bool :=
  match ptokens with
  | [] => match stokens with [] => true | _ :: _ => false end
  | p :: ptokens' =>
      if str_eqb p (lit "**") then
        (fix absorb (stokens : list str) : bool :=
           tokens_spec ptokens' stokens ||
           match stokens with
           | [] => false
           | _ :: stokens' => absorb stokens'
           end) stokens
      else
        match stokens with
        | [] => false
        | s :: stokens' => seg_ok p s && tokens_spec ptokens' stokens'
        end
  end.

(** What the loop of [LoadGitignoreSpec] does with a line once its
    negation is settled (lines 181 to 193 of the source). *)
Definition store_rule (neg : bool) (line : str) : res (option Pattern) :=
  st <- (if EndsWith line (lit "/") then
           l <- pop_back line ;; Ok (true, l)
         else Ok (false, line)) ;;
  let '(dir_only, line) := st in
  let '(anchored, line) :=
    if StartsWith line (lit "/") then (true, strip_slashes line)
    else (false, line) in
  let line := NormalizeSlashes line in
  let dir_only := if str_eqb line (lit "**") then false else dir_only in
  Ok (Some (mkPattern line neg dir_only anchored)).

(** The rule with its negation flag set. *)
Definition negate (p : Pattern) : Pattern :=
  mkPattern (pattern p) true (dir_only p) (anchored p).

(** ** The command line *)

Module Args.

Record t : Type := mk { path : str; out : option str }.

End Args.

(** [ParseArguments] returns, or writes a line to [std::cerr] and leaves
    the program with [std::exit(1)]. *)
Inductive parsed : Type :=
| Parsed (args : Args.t)
| Exit1 (cerr : str).

Definition is_path_flag (a : str) : bool :=
  str_eqb a (lit "-p") || str_eqb a (lit "--path").

Definition is_out_flag (a : str) : bool := str_eqb a (lit "--out").

(** The loop of [ParseArguments]: [argv] is what is left from [argv[i]]
    on. *)
Fixpoint ParseArguments_from (argv : list str) (args : Args.t) : parsed :=
  match argv with
  | [] => Parsed args
  | a :: rest =>
      if is_path_flag a then
        match rest with
        | v :: rest' =>
            ParseArguments_from rest' (Args.mk v (Args.out args))
        | [] => Exit1 (lit "Error: missing value for " ++ a ++ [LF])
        end
      else if is_out_flag a then
        match rest with
        | v :: rest' =>
            ParseArguments_from rest' (Args.mk (Args.path args) (Some v))
        | [] => Exit1 (lit "Error: missing value for --out" ++ [LF])
        end
      else Exit1 (lit "Unknown argument: " ++ a ++ [LF])
  end.

(** [ParseArguments(argc, argv)]: [argv[0]] is passed over. *)
Definition ParseArguments (argv : list str) : parsed :=
  ParseArguments_from (tl argv) (Args.mk (lit ".") None).

(** A command line as a list of options, each a flag and its value. *)
Definition flatten_options (opts : list (str * str)) : list str :=
  concat (map (fun fv => [fst fv; snd fv]) opts).

Definition valid_option (fv : str * str) : Prop :=
  is_path_flag (fst fv) || is_out_flag (fst fv) = true.

(** The value of the last option whose flag passes [test]. *)
Definition last_value (test : str -> bool) (opts : list (str * str))
  : option str :=
  option_map snd (find (fun fv => test (fst fv)) (rev opts)).

(** ** The dump of one file *)



(** [PrintError(out, msg)], as the texts it appends to [std::cerr] and to
    [out]. *)
Definition PrintError (msg : str) : str * str := (msg ++ [LF], msg ++ [LF; LF]).

(** ** The walk *)

(** The file system under the root, as [FindAndPrintFiles] sees it: a tree
    without links.  A directory is the list of the entries that its
    [directory_iterator] yields, in the order it yields them (none for a
    directory that cannot be read).  A regular file has the string of its
    canonical path ([None] when [fs::weakly_canonical] fails on it),
    whether that path is the one of the program itself, and its contents
    ([None] when it cannot be opened).  Anything else is neither directory
    nor regular file. *)
#[warnings="-register-all"]
Inductive fsnode : Type :=
| FsFile (canonical : option str) (is_self : bool) (contents : option str)
| FsDir (entries : list (str * fsnode))
| FsOther.

(** [PathToPosix(fs::relative(p, root_abs))] for the entry [name] of the
    directory at [dir_rel] ([None] for the root itself). *)
Definition child_rel (dir_rel : option str) (name : str) : str :=
  match dir_rel with
  | None => name
  | Some r => r ++ slash :: name
  end.

Definition is_dir_node (node : fsnode) : bool :=
  match node with
  | FsDir _ => true
  | _ => false
  end.

(** What reaches [out]: a call of [PrintFile] or one of [PrintError]. *)
Inductive event : Type :=
| Dumped (rel_posix canonical contents : str)
| OpenError (rel_posix : str).

(** A directory on the stack: its relative path and its entries. *)
Definition pending : Type := (option str * list (str * fsnode))%type.

(** The [for] loop over the entries of one directory. *)
Fixpoint visit_entries (patterns : list Pattern) (dir_rel : option str)
    (entries : list (str * fsnode)) (dirs : list pending) (out : list event)
  : res (list pending * list event) :=
  match entries with
  | [] => Ok (dirs, out)
  | (name, node) :: rest =>
      let rel_posix := child_rel dir_rel name in
      ignored <- IsIgnored patterns rel_posix (is_dir_node node) ;;
      if ignored : bool then visit_entries patterns dir_rel rest dirs out
      else
        match node with
        | FsDir sub =>
            visit_entries patterns dir_rel rest
              ((Some rel_posix, sub) :: dirs) out
        | FsOther => visit_entries patterns dir_rel rest dirs out
        | FsFile canonical is_self contents =>
            if is_self then visit_entries patterns dir_rel rest dirs out
            else
              match contents with
              | None =>
                  visit_entries patterns dir_rel rest dirs
                    (out ++ [OpenError rel_posix])
              | Some c =>
                  match canonical with
                  | None => Fault
                  | Some cp =>
                      visit_entries patterns dir_rel rest dirs
                        (out ++ [Dumped rel_posix cp c])
                  end
              end
        end
  end.

(** The [while] loop over the stack of directories, the top first. *)
Fixpoint walk_loop (fuel : nat) (patterns : list Pattern)
    (dirs : list pending) (out : list event) : res (list event) :=
  match fuel with
  | 0 => OutOfFuel
  | S fuel' =>
      match dirs with
      | [] => Ok out
      | (dir_rel, entries) :: dirs' =>
          st <- visit_entries patterns dir_rel entries dirs' out ;;
          walk_loop fuel' patterns (fst st) (snd st)
      end
  end.

(** The directories of a tree. *)
Fixpoint dir_count (node : fsnode) : nat :=
  match node with
  | FsDir entries =>
      S ((fix sum (es : list (str * fsnode)) : nat :=
            match es with
            | [] => 0
            | (_, n) :: rest => dir_count n + sum rest
            end) entries)
  | _ => 0
  end.

Definition entries_dirs (entries : list (str * fsnode)) : nat :=
  pred (dir_count (FsDir entries)).

Definition stack_dirs (dirs : list pending) : nat :=
  list_sum (map (fun d => S (entries_dirs (snd d))) dirs).

(** [FindAndPrintFiles]: [gitignore] is the contents of [<root>/.gitignore]
    as for [LoadGitignoreSpec], [root] the entries of the root.  The fuel
    is one turn of the [while] loop for every directory of the tree, the
    root included, and the test that finds the stack empty. *)
Definition FindAndPrintFiles (gitignore : option str)
    (root : list (str * fsnode)) : res (list event) :=
  patterns <- LoadGitignoreSpec gitignore ;;
  walk_loop (S (dir_count (FsDir root))) patterns [(None, root)] [].

(** An entry that the walk reaches: it is not ignored, and neither is any
    directory on the way to it. *)
Inductive visible (patterns : list Pattern)
  : option str -> list (str * fsnode) -> str -> fsnode -> Prop :=
| vis_here dir_rel entries name node :
    In (name, node) entries ->
    IsIgnored patterns (child_rel dir_rel name) (is_dir_node node) = Ok false ->
    visible patterns dir_rel entries (child_rel dir_rel name) node
| vis_below dir_rel entries name sub rel node :
    In (name, FsDir sub) entries ->
    IsIgnored patterns (child_rel dir_rel name) true = Ok false ->
    visible patterns (Some (child_rel dir_rel name)) sub rel node ->
    visible patterns dir_rel entries rel node.

(** What the loop does with a reached entry. *)
Definition event_of (rel : str) (node : fsnode) : option event :=
  match node with
  | FsFile (Some cp) false (Some c) => Some (Dumped rel cp c)
  | FsFile _ false None => Some (OpenError rel)
  | _ => None
  end.


(** The events and the pushed directories that come of the entries of one
    directory themselves. *)
Definition direct_event (patterns : list Pattern) (dir_rel : option str)
    (entries : list (str * fsnode)) (e : event) : Prop :=
  exists name node,
    In (name, node) entries /\
    IsIgnored patterns (child_rel dir_rel name) (is_dir_node node) = Ok false /\
    event_of (child_rel dir_rel name) node = Some e.

Definition direct_dir (patterns : list Pattern) (dir_rel : option str)
    (entries : list (str * fsnode)) (item : pending) : Prop :=
  exists name sub,
    In (name, FsDir sub) entries /\
    IsIgnored patterns (child_rel dir_rel name) true = Ok false /\
    item = (Some (child_rel dir_rel name), sub).

(** The events that come of a directory and of what lies below it. *)
Definition reached (patterns : list Pattern) (item : pending) (e : event)
  : Prop :=
  exists rel node,
    visible patterns (fst item) (snd item) rel node /\
    event_of rel node = Some e.


(** The events of the entries of one directory themselves, in the order of
    the entries, and the directories among them that are not ignored. *)
Fixpoint files_here (patterns : list Pattern) (dir_rel : option str)
    (entries : list (str * fsnode)) : list event :=
  match entries with
  | [] => []
  | (name, node) :: rest =>
      match IsIgnored patterns (child_rel dir_rel name) (is_dir_node node),
            event_of (child_rel dir_rel name) node with
      | Ok false, Some e => e :: files_here patterns dir_rel rest
      | _, _ => files_here patterns dir_rel rest
      end
  end.

Fixpoint subdirs_here (patterns : list Pattern) (dir_rel : option str)
    (entries : list (str * fsnode)) : list pending :=
  match entries with
  | [] => []
  | (name, node) :: rest =>
      match IsIgnored patterns (child_rel dir_rel name) (is_dir_node node),
            node with
      | Ok false, FsDir sub =>
          (Some (child_rel dir_rel name), sub)
          :: subdirs_here patterns dir_rel rest
      | _, _ => subdirs_here patterns dir_rel rest
      end
  end.

(** The events of a directory in depth-first order: its own files, then
    its subdirectories, the last one first. *)
#[warnings="-register-all"]
Inductive dfs_events (patterns : list Pattern)
  : pending -> list event -> Prop :=
| dfs_dir item below :
    Forall2 (dfs_events patterns)
            (rev (subdirs_here patterns (fst item) (snd item))) below ->
    dfs_events patterns item
      (files_here patterns (fst item) (snd item) ++ concat below).

(** * Proofs *)

(** ** Outcomes *)

Lemma bind_Ok_inv (A B : Type) (m : res A) (k : A -> res B) (b : B) :
  bind m k = Ok b -> exists a, m = Ok a /\ k a = Ok b.
Proof.
  destruct m as [a| |]; simpl; intros H; try discriminate.
  exists a; split; [reflexivity | exact H].
Qed.

(** ** Termination of the single-segment matcher *)

Lemma lex_decrease (m n a a' b b' c c' : nat) :
  b' <= m -> c' <= n ->
  a' < a \/ (a' = a /\ (b' < b \/ (b' = b /\ c' < c))) ->
  (a' * (m + 1) + b') * (n + 1) + c' < (a * (m + 1) + b) * (n + 1) + c.
Proof.
  intros Hb Hc [Ha | [-> [Hb' | [-> Hc']]]]; nia.
Qed.

Section SegmentFuel.

Variables pat text : str.

Lemma SegmentMatch_loop_fuel (fuel : nat) :
  forall pi ti star_pi star_ti,
    seg_inv pat pi ti star_pi star_ti ->
    seg_measure pat text ti star_pi star_ti < fuel ->
    exists b, SegmentMatch_loop fuel pat text pi ti star_pi star_ti = Ok b.
Proof.
  induction fuel as [|fuel IH]; intros pi ti spi sti [Hsp Hst] Hm; [lia|].
  simpl.
  destruct (nth_error text ti) as [tc|] eqn:Et; [|eexists; reflexivity].
  assert (Hti : ti < length text) by (apply nth_error_Some; congruence).
  assert (Hback :
    exists b,
      match spi with
      | Some sp =>
          SegmentMatch_loop fuel pat text sp (incr_npos sti) spi
            (Some (incr_npos sti))
      | None => Ok false
      end = Ok b).
  { destruct spi as [sp|]; [|eexists; reflexivity].
    destruct (Hsp sp eq_refl) as [Hsp1 Hsp2].
    assert (Hi : incr_npos sti <= length text).
    { destruct sti as [st|]; simpl; [specialize (Hst st eq_refl)|]; lia. }
    apply IH.
    - split; [intros sp' [= <-]; lia | intros st' [= <-]; lia].
    - eapply Nat.lt_le_trans; [|apply Nat.lt_succ_r; exact Hm].
      unfold seg_measure. simpl incr_npos.
      apply lex_decrease; lia. }
  destruct (nth_error pat pi) as [pc|] eqn:Ep; [|exact Hback].
  assert (Hpi : pi < length pat) by (apply nth_error_Some; congruence).
  destruct ((pc =? quest_c)%char || (pc =? tc)%char).
  - apply IH.
    + split; [intros sp E; destruct (Hsp sp E); lia
             | intros st E; specialize (Hst st E); lia].
    + unfold seg_measure in *. lia.
  - destruct (pc =? star_c)%char; [|exact Hback].
    apply IH.
    + split; [intros sp' [= <-]; lia | intros st' [= <-]; lia].
    + eapply Nat.lt_le_trans; [|apply Nat.lt_succ_r; exact Hm].
      unfold seg_measure. simpl incr_npos.
      assert (Hi : incr_npos sti <= S ti).
      { destruct sti as [st|]; simpl; [specialize (Hst st eq_refl)|]; lia. }
      assert (Hs : match spi with Some sp => sp | None => 0 end <= pi).
      { destruct spi as [sp|]; [destruct (Hsp sp eq_refl)|]; lia. }
      apply lex_decrease; lia.
Qed.

End SegmentFuel.

(** [SegmentMatch] always answers. *)
Lemma SegmentMatch_total (pat text : str) :
  exists b, SegmentMatch pat text = Ok b.
Proof.
  apply SegmentMatch_loop_fuel.
  - split; intros ? [=].
  - unfold seg_measure, segment_fuel. simpl. lia.
Qed.

(** ** The segment-sequence matcher *)

Lemma for_k_total (f : nat -> res bool) (n : nat) :
  forall k,
    (forall j, k <= j < k + n -> exists b, f j = Ok b) ->
    exists b, for_k f k n = Ok b.
Proof.
  induction n as [|n IH]; intros k Hf; simpl; [eexists; reflexivity|].
  destruct (Hf k) as [b Hb]; [lia|]. rewrite Hb. simpl.
  destruct b; [eexists; reflexivity|].
  apply IH. intros j Hj. apply Hf. lia.
Qed.

Lemma for_k_true (f : nat -> res bool) (n : nat) :
  forall k,
    (forall j, k <= j < k + n -> exists b, f j = Ok b) ->
    (for_k f k n = Ok true <-> exists j, k <= j < k + n /\ f j = Ok true).
Proof.
  induction n as [|n IH]; intros k Hf; simpl.
  - split; [discriminate | intros (j & Hj & _); lia].
  - destruct (Hf k) as [b Hb]; [lia|]. rewrite Hb. simpl.
    destruct b.
    + split; [intros _; exists k; split; [lia | exact Hb] | reflexivity].
    + rewrite IH by (intros j Hj; apply Hf; lia).
      split; intros (j & Hj & Hfj).
      * exists j; split; [lia | exact Hfj].
      * exists j; split; [|exact Hfj].
        destruct (Nat.eq_dec j k) as [->|]; [congruence | lia].
Qed.

Lemma for_k_no_fuel_loss (f : nat -> res bool) (n : nat) :
  forall k,
    (forall j, k <= j < k + n -> f j <> OutOfFuel) ->
    for_k f k n <> OutOfFuel.
Proof.
  induction n as [|n IH]; intros k Hf; simpl; [discriminate|].
  specialize (Hf k) as Hk.
  destruct (f k) as [[|]| |]; simpl; try discriminate.
  - apply IH. intros j Hj. apply Hf. lia.
  - apply Hk. lia.
Qed.

(** With in-range indices the matcher answers, whatever fuel above
    [size - pi] it is given. *)
Lemma TokensMatch_fuel_total (ptokens stokens : list str) (fuel : nat) :
  forall pi si,
    length ptokens - pi < fuel ->
    pi <= length ptokens -> si <= length stokens ->
    exists b, TokensMatch_fuel fuel ptokens stokens pi si = Ok b.
Proof.
  induction fuel as [|fuel IH]; intros pi si Hf Hpi Hsi; [lia|].
  cbn [TokensMatch_fuel].
  destruct (Nat.eqb_spec pi (length ptokens)) as [E|NE]; [eexists; reflexivity|].
  destruct (nth_error ptokens pi) as [p|] eqn:Ep.
  2:{ apply nth_error_None in Ep. lia. }
  destruct (str_eqb p (lit "**")).
  - apply for_k_total. intros j Hj. apply IH; lia.
  - destruct (Nat.eqb_spec si (length stokens)) as [E'|NE']; [eexists; reflexivity|].
    destruct (nth_error stokens si) as [s|] eqn:Es.
    2:{ apply nth_error_None in Es. lia. }
    destruct (SegmentMatch_total p s) as [b ->]. simpl.
    destruct b; simpl; [apply IH; lia | eexists; reflexivity].
Qed.

(** Whatever the indices, [size - pi + 1] levels of recursion are never
    exhausted. *)
Lemma TokensMatch_fuel_enough (ptokens stokens : list str) (fuel : nat) :
  forall pi si,
    length ptokens - pi < fuel ->
    TokensMatch_fuel fuel ptokens stokens pi si <> OutOfFuel.
Proof.
  induction fuel as [|fuel IH]; intros pi si Hf; [lia|].
  cbn [TokensMatch_fuel].
  destruct (Nat.eqb_spec pi (length ptokens)) as [E|NE]; [discriminate|].
  destruct (nth_error ptokens pi) as [p|] eqn:Ep; [|discriminate].
  assert (Hpi : pi < length ptokens) by (apply nth_error_Some; congruence).
  destruct (str_eqb p (lit "**")).
  - apply for_k_no_fuel_loss. intros j _. apply IH. lia.
  - destruct (si =? length stokens); [discriminate|].
    destruct (nth_error stokens si) as [s|]; [|discriminate].
    destruct (SegmentMatch_total p s) as [b ->]. simpl.
    destruct b; simpl; [apply IH; lia | discriminate].
Qed.

Lemma TokensMatch_total (ptokens stokens : list str) (pi si : nat) :
  pi <= length ptokens -> si <= length stokens ->
  exists b, TokensMatch ptokens stokens pi si = Ok b.
Proof.
  intros Hpi Hsi. apply TokensMatch_fuel_total; lia.
Qed.

(** The equations of the C++ function, free of fuel. *)
Lemma TokensMatch_end (ptokens stokens : list str) (si : nat) :
  TokensMatch ptokens stokens (length ptokens) si = Ok (si =? length stokens).
Proof.
  unfold TokensMatch. simpl. rewrite Nat.eqb_refl. reflexivity.
Qed.

Lemma TokensMatch_step (ptokens stokens : list str) (pi si : nat) (p : str) :
  nth_error ptokens pi = Some p ->
  TokensMatch ptokens stokens pi si =
    if str_eqb p (lit "**") then
      for_k (fun k => TokensMatch ptokens stokens (S pi) k)
            si (S (length stokens) - si)
    else if si =? length stokens then Ok false
    else
      match nth_error stokens si with
      | None => Fault
      | Some s =>
          b <- SegmentMatch p s ;;
          if negb b then Ok false
          else TokensMatch ptokens stokens (S pi) (S si)
      end.
Proof.
  intros Ep.
  assert (Hpi : pi < length ptokens) by (apply nth_error_Some; congruence).
  unfold TokensMatch.
  replace (length ptokens - pi) with (S (length ptokens - S pi)) by lia.
  cbn [TokensMatch_fuel]. rewrite Ep.
  destruct (Nat.eqb_spec pi (length ptokens)); [lia | reflexivity].
Qed.

Lemma WildMatchPath_total (pat path : str) :
  exists b, WildMatchPath pat path = Ok b.
Proof.
  apply TokensMatch_total; lia.
Qed.

Lemma for_k_ext (f g : nat -> res bool) (n : nat) :
  forall k, (forall j, f j = g j) -> for_k f k n = for_k g k n.
Proof.
  induction n as [|n IH]; intros k Hfg; simpl; [reflexivity|].
  rewrite Hfg. destruct (g k) as [[|]| |]; simpl; auto.
Qed.

(** Fuel is only a device: any two amounts above [size - pi] give the same
    outcome. *)
Lemma TokensMatch_fuel_irrelevant (ptokens stokens : list str) (f1 : nat) :
  forall f2 pi si,
    length ptokens - pi < f1 -> length ptokens - pi < f2 ->
    TokensMatch_fuel f1 ptokens stokens pi si =
    TokensMatch_fuel f2 ptokens stokens pi si.
Proof.
  induction f1 as [|f1 IH]; intros f2 pi si H1 H2; [lia|].
  destruct f2 as [|f2]; [lia|].
  cbn [TokensMatch_fuel].
  destruct (Nat.eqb_spec pi (length ptokens)) as [E|NE]; [reflexivity|].
  destruct (nth_error ptokens pi) as [p|] eqn:Ep; [|reflexivity].
  assert (Hpi : pi < length ptokens) by (apply nth_error_Some; congruence).
  destruct (str_eqb p (lit "**")).
  - apply for_k_ext. intros j. apply IH; lia.
  - destruct (si =? length stokens)%nat; [reflexivity|].
    destruct (nth_error stokens si) as [s|]; [|reflexivity].
    destruct (SegmentMatch p s) as [[|]| |]; simpl; try reflexivity.
    apply IH; lia.
Qed.

(** ** [GitWildMatch] *)

Lemma str_eqb_eq (a b : str) : str_eqb a b = true <-> a = b.
Proof.
  unfold str_eqb. destruct (list_eq_dec ascii_dec a b); split; congruence.
Qed.

Lemma str_eqb_refl (a : str) : str_eqb a a = true.
Proof. apply str_eqb_eq. reflexivity. Qed.

Lemma EndsWith_nonempty (s : str) : EndsWith s (lit "/") = true -> s <> [].
Proof.
  intros H ->. discriminate H.
Qed.

Lemma compare_path_total (p : Pattern) (rel_path : str) :
  exists path, compare_path p rel_path = Ok path.
Proof.
  unfold compare_path.
  destruct (EndsWith rel_path (lit "/")) eqn:E; [|eexists; reflexivity].
  destruct (negb (dir_only p)); [|eexists; reflexivity].
  apply EndsWith_nonempty in E.
  destruct rel_path; [congruence | eexists; reflexivity].
Qed.

Lemma suffix_loop_spec (pat path : str) (n : nat) :
  forall i,
    i + n = length path ->
    (exists b, suffix_loop pat path i n = Ok b) /\
    (suffix_loop pat path i n = Ok true <->
     exists j, i <= j /\ nth_error path j = Some slash /\
               S j < length path /\
               WildMatchPath pat (skipn (S j) path) = Ok true).
Proof.
  induction n as [|n IH]; intros i Hi; simpl.
  - split; [eexists; reflexivity|].
    split; [discriminate|].
    intros (j & Hj & Hs & Hlt & _). lia.
  - destruct (nth_error path i) as [c|] eqn:Ec.
    2:{ apply nth_error_None in Ec. lia. }
    destruct (IH (S i)) as [IHt IHs]; [lia|].
    assert (Hlater :
      (exists j, i <= j /\ nth_error path j = Some slash /\
                 S j < length path /\
                 WildMatchPath pat (skipn (S j) path) = Ok true) <->
      (c = slash /\ S i < length path /\
       WildMatchPath pat (skipn (S i) path) = Ok true) \/
      (exists j, S i <= j /\ nth_error path j = Some slash /\
                 S j < length path /\
                 WildMatchPath pat (skipn (S j) path) = Ok true)).
    { split.
      - intros (j & Hj & Hs & Hlt & Hw).
        destruct (Nat.eq_dec j i) as [->|NE].
        + left. split; [congruence | auto].
        + right. exists j. repeat split; auto; lia.
      - intros [(-> & Hlt & Hw) | (j & Hj & Hs & Hlt & Hw)].
        + exists i. repeat split; auto.
        + exists j. repeat split; auto; lia. }
    rewrite Hlater.
    destruct (Ascii.eqb_spec c slash) as [Ec'|Ec']; cbn [andb].
    + destruct (Nat.ltb_spec (S i) (length path)) as [Hlt|Hge].
      * unfold substr_from.
        destruct (Nat.leb_spec (S i) (length path)) as [_|?]; [|lia].
        cbn [bind].
        destruct (WildMatchPath_total pat (skipn (S i) path)) as [b Hb].
        rewrite Hb. cbn [bind]. destruct b.
        -- split; [eexists; reflexivity|].
           split; [intros _; left; auto | reflexivity].
        -- split; [exact IHt|]. rewrite IHs.
           split; [intros H; right; exact H|].
           intros [(_ & _ & Hw) | H]; [congruence | exact H].
      * split; [exact IHt|]. rewrite IHs.
        split; [intros H; right; exact H|].
        intros [(_ & Hlt & _) | H]; [lia | exact H].
    + split; [exact IHt|]. rewrite IHs.
      split; [intros H; right; exact H|].
      intros [(E & _) | H]; [contradiction | exact H].
Qed.

Lemma GitWildMatch_total (p : Pattern) (rel_path : str) (is_dir : bool) :
  exists b, GitWildMatch p rel_path is_dir = Ok b.
Proof.
  unfold GitWildMatch.
  destruct (dir_only p && negb is_dir); [eexists; reflexivity|].
  destruct (compare_path_total p rel_path) as [path ->]. cbn [bind].
  destruct (anchored p); [apply WildMatchPath_total|].
  destruct (WildMatchPath_total (pattern p) path) as [b ->]. cbn [bind].
  destruct b; [eexists; reflexivity|].
  apply (suffix_loop_spec (pattern p) path (length path) 0). reflexivity.
Qed.

(** ** [IsIgnored] *)

Lemma ruleMatches_true (p : Pattern) (rel_path : str) (is_dir : bool) :
  ruleMatches p rel_path is_dir = true <-> GitWildMatch p rel_path is_dir = Ok true.
Proof.
  unfold ruleMatches.
  destruct (GitWildMatch p rel_path is_dir) as [[|]| |]; split;
    congruence.
Qed.

Lemma GitWildMatch_ruleMatches (p : Pattern) (rel_path : str) (is_dir : bool) :
  GitWildMatch p rel_path is_dir = Ok (ruleMatches p rel_path is_dir).
Proof.
  unfold ruleMatches.
  destruct (GitWildMatch_total p rel_path is_dir) as [b ->]. reflexivity.
Qed.

Lemma IsIgnored_loop_app (rel_path : str) (is_dir : bool)
    (ps : list Pattern) :
  forall matched p,
    IsIgnored_loop (ps ++ [p]) rel_path is_dir matched =
    (m <- IsIgnored_loop ps rel_path is_dir matched ;;
     b <- GitWildMatch p rel_path is_dir ;;
     Ok (if b : bool then negb (negated p) else m)).
Proof.
  induction ps as [|q ps IH]; intros matched p; simpl.
  - destruct (GitWildMatch p rel_path is_dir); reflexivity.
  - destruct (GitWildMatch q rel_path is_dir); simpl; auto.
Qed.

Lemma IsIgnored_last_match (rel_path : str) (is_dir : bool)
    (patterns : list Pattern) :
  IsIgnored patterns rel_path is_dir =
  Ok (last_match_wins patterns rel_path is_dir).
Proof.
  unfold IsIgnored, last_match_wins.
  induction patterns as [|p ps IH] using rev_ind; [reflexivity|].
  rewrite IsIgnored_loop_app, IH, rev_app_distr. simpl.
  rewrite GitWildMatch_ruleMatches. simpl.
  destruct (ruleMatches p rel_path is_dir); reflexivity.
Qed.

Lemma find_app_none (A : Type) (f : A -> bool) (l1 l2 : list A) :
  (forall x, In x l1 -> f x = false) -> find f (l1 ++ l2) = find f l2.
Proof.
  induction l1 as [|a l1 IH]; intros H; simpl; [reflexivity|].
  rewrite (H a) by (left; reflexivity).
  apply IH. intros x Hx. apply H. right. exact Hx.
Qed.

Lemma last_match_wins_at (rel_path : str) (is_dir : bool)
    (before after : list Pattern) (p : Pattern) :
  ruleMatches p rel_path is_dir = true ->
  (forall q, In q after -> ruleMatches q rel_path is_dir = false) ->
  last_match_wins (before ++ p :: after) rel_path is_dir = negb (negated p).
Proof.
  intros Hp Hafter. unfold last_match_wins.
  rewrite rev_app_distr. simpl. rewrite <- app_assoc.
  rewrite find_app_none.
  - simpl. rewrite Hp. reflexivity.
  - intros q Hq. apply Hafter. apply in_rev. exact Hq.
Qed.

Lemma last_match_wins_none (rel_path : str) (is_dir : bool)
    (patterns : list Pattern) :
  (forall q, In q patterns -> ruleMatches q rel_path is_dir = false) ->
  last_match_wins patterns rel_path is_dir = false.
Proof.
  intros H. unfold last_match_wins.
  rewrite <- (app_nil_r (rev patterns)), find_app_none; [reflexivity|].
  intros q Hq. apply H. apply in_rev. exact Hq.
Qed.

Lemma skipn_cons_nth (A : Type) (l : list A) :
  forall i x r, skipn i l = x :: r ->
                nth_error l i = Some x /\ skipn (S i) l = r.
Proof.
  induction l as [|a l IH]; intros i x r H.
  - destruct i; discriminate.
  - destruct i as [|i]; simpl in *.
    + inversion H. split; reflexivity.
    + apply IH. exact H.
Qed.

(** ** The rule compiler *)

Lemma trim_fwd_le (rest : str) :
  forall i, trim_fwd rest i <= i + length rest.
Proof.
  induction rest as [|c r IH]; intros i; simpl; [lia|].
  destruct (is_ws c); [specialize (IH (S i))|]; lia.
Qed.

Lemma Trim_total (s : str) : exists t, Trim s = Ok t.
Proof.
  unfold Trim, substr.
  pose proof (trim_fwd_le s 0) as H. simpl in H.
  destruct (Nat.leb_spec (trim_fwd s 0) (length s)); [|lia].
  eexists; reflexivity.
Qed.

Lemma first_is_nonempty (c : ascii) (line : str) :
  first_is c line = true -> exists r, line = c :: r.
Proof.
  destruct line as [|c' r]; simpl; [discriminate|].
  intros H. apply Ascii.eqb_eq in H. subst. eexists; reflexivity.
Qed.

Lemma pop_back_total (s : str) :
  EndsWith s (lit "/") = true -> exists t, pop_back s = Ok t.
Proof.
  intros H. apply EndsWith_nonempty in H.
  destruct s; [congruence | eexists; reflexivity].
Qed.

Lemma compile_line_total (line0 : str) :
  exists r, compile_line line0 = Ok r.
Proof.
  unfold compile_line.
  destruct (Trim_total line0) as [line ->]. cbn [bind].
  destruct line as [|c line]; [eexists; reflexivity|].
  destruct (first_is hash_c (c :: line)); [eexists; reflexivity|].
  destruct (first_is bang_c (c :: line)).
  - cbn [erase_begin bind].
    destruct (Trim_total line) as [l2 ->]. cbn [bind andb].
    destruct l2 as [|c2 l2]; [eexists; reflexivity|].
    destruct (EndsWith (c2 :: l2) (lit "/")) eqn:E.
    + destruct (pop_back_total _ E) as [t ->]. cbn [bind].
      destruct (StartsWith t (lit "/")); eexists; reflexivity.
    + cbn [bind]. destruct (StartsWith (c2 :: l2) (lit "/"));
        eexists; reflexivity.
  - cbn [bind andb].
    destruct (EndsWith (c :: line) (lit "/")) eqn:E.
    + destruct (pop_back_total _ E) as [t ->]. cbn [bind].
      destruct (StartsWith t (lit "/")); eexists; reflexivity.
    + cbn [bind]. destruct (StartsWith (c :: line) (lit "/"));
        eexists; reflexivity.
Qed.

Lemma compile_lines_total (lines : list str) :
  forall acc, exists rs, compile_lines lines acc = Ok rs.
Proof.
  induction lines as [|l lines IH]; intros acc; simpl;
    [eexists; reflexivity|].
  destruct (compile_line_total l) as [[p|] ->]; cbn [bind]; apply IH.
Qed.

Lemma compile_lines_skip (pre : list str) (l : str) (post : list str) :
  compile_line l = Ok None ->
  forall acc,
    compile_lines (pre ++ l :: post) acc = compile_lines (pre ++ post) acc.
Proof.
  intros Hl. induction pre as [|a pre IH]; intros acc; simpl.
  - rewrite Hl. reflexivity.
  - destruct (compile_line a) as [[p|]| |]; cbn [bind]; auto.
Qed.

Lemma compile_lines_In (lines : list str) :
  forall acc rs p,
    compile_lines lines acc = Ok rs -> In p rs ->
    In p acc \/ exists l, In l lines /\ compile_line l = Ok (Some p).
Proof.
  induction lines as [|l lines IH]; intros acc rs p H Hin; simpl in H.
  - inversion H; subst. left. exact Hin.
  - destruct (compile_line l) as [[q|]| |] eqn:El; cbn [bind] in H;
      try discriminate.
    + destruct (IH _ _ _ H Hin) as [Hacc | (l' & Hl' & Hc)].
      * apply in_app_or in Hacc. destruct Hacc as [Hacc | [<- | []]].
        -- left. exact Hacc.
        -- right. exists l. split; [left; reflexivity | exact El].
      * right. exists l'. split; [right; exact Hl' | exact Hc].
    + destruct (IH _ _ _ H Hin) as [Hacc | (l' & Hl' & Hc)].
      * left. exact Hacc.
      * right. exists l'. split; [right; exact Hl' | exact Hc].
Qed.

Lemma getlines_from_line (l : str) :
  forall cur rest,
    no_LF l ->
    getlines_from cur (l ++ LF :: rest) = (cur ++ l) :: getlines_from [] rest.
Proof.
  induction l as [|c l IH]; intros cur rest Hl; simpl.
  - rewrite app_nil_r. reflexivity.
  - destruct (Ascii.eqb_spec c LF) as [->|NE].
    + exfalso. apply Hl. left. reflexivity.
    + rewrite IH by (intros H; apply Hl; right; exact H).
      rewrite <- app_assoc. reflexivity.
Qed.

Lemma getlines_unlines_app (ls : list str) (rest : str) :
  Forall no_LF ls ->
  getlines (unlines ls ++ rest) = ls ++ getlines rest.
Proof.
  unfold getlines.
  induction 1 as [|l ls Hl _ IH]; simpl; [reflexivity|].
  change (unlines (l :: ls)) with ((l ++ [LF]) ++ unlines ls).
  rewrite <- !app_assoc. simpl.
  rewrite getlines_from_line by exact Hl.
  rewrite IH. reflexivity.
Qed.

Lemma getlines_from_last (l : str) :
  forall cur,
    no_LF l ->
    getlines_from cur l = match cur ++ l with [] => [] | _ => [cur ++ l] end.
Proof.
  induction l as [|c l IH]; intros cur Hl; simpl.
  - rewrite app_nil_r. reflexivity.
  - destruct (Ascii.eqb_spec c LF) as [->|NE].
    + exfalso. apply Hl. left. reflexivity.
    + rewrite IH by (intros H; apply Hl; right; exact H).
      rewrite <- app_assoc. reflexivity.
Qed.

(** White space after a ['!'] is trimmed away. *)
Lemma trim_back_bang (w : str) :
  Forall (fun c => is_ws c = true) w ->
  forall j, 1 <= j <= S (length w) -> trim_back (bang_c :: w) 0 j = 1.
Proof.
  intros Hw. induction j as [|j IH]; intros Hj; [lia|].
  destruct j as [|j]; [reflexivity|].
  cbn [trim_back Nat.ltb Nat.leb andb].
  change (nth_error (bang_c :: w) (S j)) with (nth_error w j).
  destruct (nth_error w j) as [c|] eqn:Ec.
  - rewrite Forall_forall in Hw. rewrite (Hw c) by (eapply nth_error_In; eauto).
    apply IH. lia.
  - apply nth_error_None in Ec. lia.
Qed.

Lemma Trim_bang (w : str) :
  Forall (fun c => is_ws c = true) w -> Trim (bang_c :: w) = Ok [bang_c].
Proof.
  intros Hw. unfold Trim.
  change (trim_fwd (bang_c :: w) 0) with 0.
  rewrite trim_back_bang by (simpl; auto; lia).
  reflexivity.
Qed.

Lemma unusable_skipped (l : str) : unusable l -> compile_line l = Ok None.
Proof.
  unfold compile_line.
  intros [H | [(r & H) | (w & -> & Hw)]].
  - rewrite H. reflexivity.
  - rewrite H. reflexivity.
  - rewrite (Trim_bang Hw). reflexivity.
Qed.

Lemma compile_line_double_star (l : str) (p : Pattern) :
  compile_line l = Ok (Some p) ->
  pattern p = lit "**" -> dir_only p = false.
Proof.
  unfold compile_line. intros H Hp.
  destruct (Trim l) as [line| |]; cbn [bind] in H; try discriminate.
  destruct line as [|c line]; [discriminate|].
  destruct (first_is hash_c (c :: line)); [discriminate|].
  assert (Hend : forall neg line,
    (st <- (if EndsWith line (lit "/") then
              l0 <- pop_back line ;; Ok (true, l0)
            else Ok (false, line)) ;;
     let '(dir_only, line) := st in
     let '(anchored, line) :=
       if StartsWith line (lit "/") then (true, strip_slashes line)
       else (false, line) in
     let line := NormalizeSlashes line in
     let dir_only := if str_eqb line (lit "**") then false else dir_only in
     Ok (Some (mkPattern line neg dir_only anchored))) = Ok (Some p) ->
    dir_only p = false).
  { clear H. intros neg ln H.
    apply bind_Ok_inv in H. destruct H as ([d ln'] & _ & H).
    destruct (StartsWith ln' (lit "/")); inversion H; subst p;
      simpl in Hp |- *; rewrite Hp; reflexivity. }
  destruct (first_is bang_c (c :: line)).
  - cbn [erase_begin bind] in H.
    destruct (Trim line) as [l2| |]; cbn [bind andb] in H; try discriminate.
    destruct l2 as [|c2 l2]; [discriminate|].
    eapply Hend. exact H.
  - cbn [bind andb] in H. eapply Hend. exact H.
Qed.

(** ** The single-segment matcher against its specification *)

Lemma glob_star (q w : str) :
  glob_spec (star_c :: q) w =
  glob_spec q w ||
  match w with
  | [] => false
  | _ :: w' => glob_spec (star_c :: q) w'
  end.
Proof.
  destruct w; reflexivity.
Qed.

Lemma glob_lit (pc : ascii) (q w : str) :
  (pc =? star_c)%char = false ->
  glob_spec (pc :: q) w =
  match w with
  | [] => false
  | tc :: w' => ((pc =? quest_c)%char || (pc =? tc)%char) && glob_spec q w'
  end.
Proof.
  intros H. simpl. rewrite H. reflexivity.
Qed.

Lemma glob_star_skipn (q w : str) :
  glob_spec (star_c :: q) w = true <->
  exists j, glob_spec q (skipn j w) = true.
Proof.
  induction w as [|c w IH]; rewrite glob_star.
  - rewrite orb_false_r. split.
    + intros H. exists 0. exact H.
    + intros [j H]. rewrite skipn_nil in H. exact H.
  - rewrite orb_true_iff, IH. split.
    + intros [H | [j H]]; [exists 0 | exists (S j)]; exact H.
    + intros [[|j] H]; [left | right; exists j]; exact H.
Qed.

Lemma glob_star_later (q w : str) (j : nat) :
  glob_spec (star_c :: q) (skipn j w) = true ->
  glob_spec (star_c :: q) w = true.
Proof.
  rewrite !glob_star_skipn. intros [k H].
  exists (j + k). rewrite Nat.add_comm, <- skipn_skipn. exact H.
Qed.

Lemma glob_lits (x u : str) :
  Forall2 lit_step x u ->
  forall q v, glob_spec (x ++ q) (u ++ v) = glob_spec q v.
Proof.
  induction 1 as [|pc tc x u [Hs Hm] _ IH]; intros q v; [reflexivity|].
  simpl app. rewrite glob_lit by exact Hs. rewrite Hm. apply IH.
Qed.

Lemma glob_lits_inv (x : str) :
  Forall (fun c => (c =? star_c)%char = false) x ->
  forall q w,
    glob_spec (x ++ q) w = true ->
    length x <= length w /\ glob_spec q (skipn (length x) w) = true.
Proof.
  induction 1 as [|pc x Hs _ IH]; intros q w H; simpl in *.
  - split; [lia | exact H].
  - rewrite Hs in H. destruct w as [|tc w]; [discriminate|].
    apply andb_true_iff in H. destruct H as [_ H].
    destruct (IH _ _ H). split; [simpl; lia | assumption].
Qed.

Lemma glob_count_lit (q : str) :
  forall w, glob_spec q w = true -> count_lit q <= length w.
Proof.
  unfold count_lit.
  induction q as [|pc q IH]; intros w H; [simpl; lia|].
  destruct (pc =? star_c)%char eqn:Es.
  - apply Ascii.eqb_eq in Es. subst pc.
    apply glob_star_skipn in H. destruct H as [j H].
    apply IH in H. rewrite length_skipn in H. simpl. lia.
  - rewrite glob_lit in H by exact Es. simpl. rewrite Es. simpl.
    destruct w as [|tc w]; [discriminate|].
    apply andb_true_iff in H. destruct H as [_ H].
    apply IH in H. simpl. lia.
Qed.

Lemma glob_empty_text (q : str) : glob_spec q [] = all_stars q.
Proof.
  induction q as [|pc q IH]; [reflexivity|].
  simpl. destruct (pc =? star_c)%char; [|reflexivity].
  rewrite IH, orb_false_r. reflexivity.
Qed.

Lemma all_stars_count (q : str) : all_stars q = false -> 1 <= count_lit q.
Proof.
  unfold count_lit.
  induction q as [|pc q IH]; simpl; [discriminate|].
  destruct (pc =? star_c)%char; simpl; [exact IH | lia].
Qed.

Lemma count_lit_lits (x u : str) :
  Forall2 lit_step x u ->
  forall q, count_lit (x ++ q) = length u + count_lit q.
Proof.
  unfold count_lit.
  induction 1 as [|pc tc x u [Hs _] _ IH]; intros q; [reflexivity|].
  simpl. rewrite Hs. simpl. rewrite IH. reflexivity.
Qed.

(** The greedy step: a later star makes the earlier one irrelevant. *)
Lemma glob_star_star (x u : str) :
  Forall2 lit_step x u ->
  forall q v,
    glob_spec (star_c :: x ++ star_c :: q) (u ++ v) =
    glob_spec (star_c :: q) v.
Proof.
  intros Hxu q v.
  apply eq_true_iff_eq. split.
  - intros H. apply glob_star_skipn in H. destruct H as [j H].
    apply glob_lits_inv in H.
    2:{ clear -Hxu. induction Hxu as [|? ? ? ? [Hs _]]; constructor; auto. }
    destruct H as [_ H]. rewrite skipn_skipn in H.
    rewrite (Forall2_length Hxu) in H.
    rewrite Nat.add_comm, <- skipn_skipn in H.
    rewrite skipn_app, skipn_all, Nat.sub_diag in H. simpl in H.
    eapply glob_star_later. exact H.
  - intros H. apply glob_star_skipn. exists 0. simpl.
    rewrite glob_lits by exact Hxu. exact H.
Qed.

(** The closing loop decides whether only stars are left. *)
Lemma skip_stars_spec (rest : str) :
  forall pi,
    (skip_stars rest pi =? pi + length rest)%nat = all_stars rest.
Proof.
  induction rest as [|c r IH]; intros pi; simpl.
  - rewrite Nat.add_0_r. apply Nat.eqb_refl.
  - destruct (c =? star_c)%char; simpl.
    + rewrite <- (IH (S pi)). f_equal. lia.
    + apply Nat.eqb_neq. lia.
Qed.

Lemma nth_error_skipn_cons (A : Type) (l : list A) :
  forall i x, nth_error l i = Some x -> skipn i l = x :: skipn (S i) l.
Proof.
  induction l as [|a l IH]; intros [|i] x H; simpl in *; try discriminate.
  - congruence.
  - apply IH. exact H.
Qed.

Section SegmentCorrect.

Variables pat text : str.
Hypothesis text_star_free : ~ In star_c text.

Lemma SegmentMatch_loop_glob (fuel : nat) :
  forall pi ti star_pi star_ti b,
    glob_inv pat text pi ti star_pi star_ti ->
    SegmentMatch_loop fuel pat text pi ti star_pi star_ti = Ok b ->
    b = glob_spec pat text.
Proof.
  induction fuel as [|fuel IH]; intros pi ti spi sti b [Hpi Hinv] H;
    [discriminate|].
  cbn [SegmentMatch_loop] in H.
  destruct (nth_error text ti) as [tc|] eqn:Et.
  - (* one more iteration *)
    assert (Htc : (tc =? star_c)%char = false).
    { apply Ascii.eqb_neq. intros ->. apply text_star_free.
      eapply nth_error_In. exact Et. }
    pose proof (nth_error_skipn_cons _ _ Et) as Ht.
    assert (Hback :
      glob_spec (skipn pi pat) (skipn ti text) = false ->
      match spi with
      | Some sp =>
          SegmentMatch_loop fuel pat text sp (incr_npos sti) spi
            (Some (incr_npos sti))
      | None => Ok false
      end = Ok b ->
      b = glob_spec pat text).
    { intros Hno Hb. destruct spi as [sp|].
      - destruct Hinv as (st & x & u & -> & Hsp & Hx & Hu & Hxu & HG).
        simpl incr_npos in Hb.
        apply IH in Hb; [exact Hb|]. split; [exact Hsp|].
        exists (S st), [], []. repeat split; auto.
        rewrite HG, glob_star.
        replace (glob_spec (skipn sp pat) (skipn st text)) with false.
        2:{ rewrite Hx, Hu, glob_lits by exact Hxu. symmetry. exact Hno. }
        destruct (skipn st text) as [|c w] eqn:E.
        + exfalso. symmetry in Hu. rewrite Ht in Hu.
          apply app_eq_nil in Hu. destruct Hu; discriminate.
        + apply skipn_cons_nth in E. destruct E as [_ <-]. reflexivity.
      - inversion Hb. congruence. }
    destruct (nth_error pat pi) as [pc|] eqn:Ep.
    + pose proof (nth_error_skipn_cons _ _ Ep) as Hp.
      assert (Hlt : pi < length pat) by (apply nth_error_Some; congruence).
      destruct ((pc =? quest_c)%char || (pc =? tc)%char) eqn:Em.
      * (* the two characters agree *)
        assert (Hps : (pc =? star_c)%char = false).
        { apply orb_true_iff in Em. destruct Em as [E|E];
            apply Ascii.eqb_eq in E; subst pc; [reflexivity | exact Htc]. }
        apply IH in H; [exact H|]. split; [lia|].
        destruct spi as [sp|].
        -- destruct Hinv as (st & x & u & -> & Hsp & Hx & Hu & Hxu & HG).
           exists st, (x ++ [pc]), (u ++ [tc]).
           repeat split; auto.
           ++ rewrite Hx, Hp, <- app_assoc. reflexivity.
           ++ rewrite Hu, Ht, <- app_assoc. reflexivity.
           ++ apply Forall2_app; [exact Hxu|].
              constructor; [split; assumption | constructor].
        -- rewrite Hinv, Hp, Ht, glob_lit by exact Hps.
           rewrite Em. reflexivity.
      * destruct (pc =? star_c)%char eqn:Es.
        -- (* a star is remembered *)
           apply Ascii.eqb_eq in Es. subst pc.
           apply IH in H; [exact H|]. split; [lia|].
           exists ti, [], []. repeat split; auto.
           destruct spi as [sp|].
           ++ destruct Hinv as (st & x & u & -> & Hsp & Hx & Hu & Hxu & HG).
              rewrite HG, Hx, Hu, Hp.
              apply glob_star_star. exact Hxu.
           ++ rewrite Hinv, Hp. reflexivity.
        -- (* mismatch *)
           apply Hback; [|exact H].
           rewrite Hp, Ht, glob_lit by exact Es. rewrite Em. reflexivity.
    + (* the pattern is exhausted, the text is not *)
      apply Hback; [|exact H].
      rewrite skipn_all2 by (apply nth_error_None; exact Ep).
      rewrite Ht. reflexivity.
  - (* the text is exhausted *)
    inversion H as [Hb]. clear H.
    assert (Hn : skipn ti text = []).
    { apply skipn_all2. apply nth_error_None. exact Et. }
    replace (length pat) with (pi + length (skipn pi pat))
      by (rewrite length_skipn; lia).
    rewrite skip_stars_spec.
    destruct spi as [sp|].
    + destruct Hinv as (st & x & u & -> & Hsp & Hx & Hu & Hxu & HG).
      rewrite HG, Hx, Hu, Hn.
      destruct (all_stars (skipn pi pat)) eqn:Ea; symmetry.
      * apply glob_star_skipn. exists 0. simpl.
        rewrite glob_lits by exact Hxu.
        rewrite glob_empty_text. exact Ea.
      * apply not_true_is_false. intros Hg.
        apply glob_count_lit in Hg.
        change (count_lit (star_c :: x ++ skipn pi pat))
          with (count_lit (x ++ skipn pi pat)) in Hg.
        rewrite (count_lit_lits Hxu), length_app in Hg.
        apply all_stars_count in Ea. simpl in Hg. lia.
    + rewrite Hinv, Hn. symmetry. apply glob_empty_text.
Qed.

(** On a text without ['*'], [SegmentMatch] decides the glob language. *)
Lemma SegmentMatch_glob : SegmentMatch pat text = Ok (glob_spec pat text).
Proof.
  destruct (SegmentMatch_total pat text) as [b Hb]. rewrite Hb. f_equal.
  eapply SegmentMatch_loop_glob; [|exact Hb].
  split; [lia | reflexivity].
Qed.

End SegmentCorrect.

Lemma glob_char_ok (pc tc : ascii) (q v : str) :
  char_ok pc tc -> glob_spec q v = true -> glob_spec (pc :: q) (tc :: v) = true.
Proof.
  intros Hc H. destruct (pc =? star_c)%char eqn:Es.
  - apply Ascii.eqb_eq in Es. subst pc.
    apply glob_star_skipn. exists 1. exact H.
  - rewrite glob_lit by exact Es. rewrite Hc. exact H.
Qed.

Lemma glob_chars_ok (x u : str) :
  Forall2 char_ok x u ->
  forall q v, glob_spec q v = true -> glob_spec (x ++ q) (u ++ v) = true.
Proof.
  induction 1 as [|pc tc x u Hc _ IH]; intros q v H; [exact H|].
  simpl app. apply glob_char_ok; [exact Hc | apply IH; exact H].
Qed.

(** [SegmentMatch] never accepts a text outside the glob language, whatever
    the text contains. *)
Lemma SegmentMatch_loop_sound (pat text : str) (fuel : nat) :
  forall pi ti star_pi star_ti,
    sound_inv pat text pi ti star_pi star_ti ->
    SegmentMatch_loop fuel pat text pi ti star_pi star_ti = Ok true ->
    glob_spec pat text = true.
Proof.
  induction fuel as [|fuel IH]; intros pi ti spi sti [Hpi Hinv] H;
    [discriminate|].
  cbn [SegmentMatch_loop] in H.
  destruct (nth_error text ti) as [tc|] eqn:Et.
  - pose proof (nth_error_skipn_cons _ _ Et) as Ht.
    assert (Hback :
      match spi with
      | Some sp =>
          SegmentMatch_loop fuel pat text sp (incr_npos sti) spi
            (Some (incr_npos sti))
      | None => Ok false
      end = Ok true ->
      glob_spec pat text = true).
    { intros Hb. destruct spi as [sp|]; [|discriminate].
      destruct Hinv as (x & u & Hsp & Hx & Hu & Hxu & HG).
      apply IH in Hb; [exact Hb|]. split; [exact Hsp|].
      exists [], []. repeat split; auto.
      - simpl. rewrite Nat.sub_0_r. reflexivity.
      - simpl incr_npos at 1. rewrite Nat.sub_succ, Nat.sub_0_r.
        intros Hg. apply HG.
        destruct sti as [st|]; simpl in *.
        + rewrite Nat.sub_0_r.
          apply (glob_star_later _ _ 1). rewrite skipn_skipn. exact Hg.
        + exact Hg. }
    destruct (nth_error pat pi) as [pc|] eqn:Ep; [|exact (Hback H)].
    pose proof (nth_error_skipn_cons _ _ Ep) as Hp.
    assert (Hlt : pi < length pat) by (apply nth_error_Some; congruence).
    destruct ((pc =? quest_c)%char || (pc =? tc)%char) eqn:Em.
    + apply IH in H; [exact H|]. split; [lia|].
      destruct spi as [sp|].
      * destruct Hinv as (x & u & Hsp & Hx & Hu & Hxu & HG).
        exists (x ++ [pc]), (u ++ [tc]). repeat split; auto.
        -- rewrite Hx, Hp, <- app_assoc. reflexivity.
        -- rewrite Hu, Ht, <- app_assoc. reflexivity.
        -- apply Forall2_app; [exact Hxu|].
           constructor; [exact Em | constructor].
      * intros Hg. apply Hinv. rewrite Hp, Ht.
        apply glob_char_ok; [exact Em | exact Hg].
    + destruct (pc =? star_c)%char eqn:Es; [|exact (Hback H)].
      apply Ascii.eqb_eq in Es. subst pc.
      apply IH in H; [exact H|]. split; [lia|].
      exists [], []. simpl incr_npos. rewrite Nat.sub_succ, Nat.sub_0_r.
      repeat split; auto.
      intros Hg. destruct spi as [sp|].
      * destruct Hinv as (x & u & Hsp & Hx & Hu & Hxu & HG).
        apply HG. apply glob_star_skipn. exists 0. simpl.
        rewrite Hx, Hu, Hp. apply glob_chars_ok; [exact Hxu | exact Hg].
      * apply Hinv. rewrite Hp. exact Hg.
  - injection H as Hb.
    assert (Hn : skipn ti text = []).
    { apply skipn_all2. apply nth_error_None. exact Et. }
    replace (length pat) with (pi + length (skipn pi pat)) in Hb
      by (rewrite length_skipn; lia).
    rewrite skip_stars_spec in Hb.
    destruct spi as [sp|].
    + destruct Hinv as (x & u & Hsp & Hx & Hu & Hxu & HG).
      apply HG. apply glob_star_skipn. exists 0. simpl.
      rewrite Hx, Hu, Hn. apply glob_chars_ok; [exact Hxu|].
      rewrite glob_empty_text. exact Hb.
    + apply Hinv. rewrite Hn, glob_empty_text. exact Hb.
Qed.

Lemma SegmentMatch_sound (pat text : str) :
  SegmentMatch pat text = Ok true -> glob_spec pat text = true.
Proof.
  apply SegmentMatch_loop_sound. split; [lia | auto].
Qed.

(** No token of [Split] holds the delimiter. *)
Lemma Split_from_no_delim (s : str) (delim : ascii) :
  forall cur tok,
    ~ In delim cur -> In tok (Split_from cur s delim) -> ~ In delim tok.
Proof.
  induction s as [|c s IH]; intros cur tok Hcur Hin; simpl in Hin.
  - destruct Hin as [<- | []]. exact Hcur.
  - destruct (Ascii.eqb_spec c delim) as [->|NE].
    + destruct Hin as [<- | Hin]; [exact Hcur|].
      eapply IH; [|exact Hin]. intros [].
    + eapply IH; [|exact Hin].
      intros Hc. apply in_app_or in Hc.
      destruct Hc as [Hc | [Hc | []]]; [auto | congruence].
Qed.

Lemma Split_no_delim (s : str) (delim : ascii) (tok : str) :
  In tok (Split s delim) -> ~ In delim tok.
Proof.
  apply Split_from_no_delim. intros [].
Qed.

Lemma SegmentMatch_empty_pattern (text : str) :
  SegmentMatch [] text = Ok (match text with [] => true | _ :: _ => false end).
Proof.
  destruct text; reflexivity.
Qed.

(** A slash at the last position is what [EndsWith] looks for. *)
Lemma EndsWith_last_slash (path : str) (i : nat) :
  nth_error path i = Some slash -> S i = length path ->
  EndsWith path (lit "/") = true.
Proof.
  intros Hi Hlen. unfold EndsWith.
  change (length (lit "/")) with 1.
  destruct (Nat.leb_spec 1 (length path)); [|lia].
  replace (length path - 1) with i by lia.
  rewrite (nth_error_skipn_cons _ _ Hi), skipn_all2 by lia.
  reflexivity.
Qed.

(** ** Rules with the empty pattern *)

Lemma Split_from_nonempty (s : str) (delim : ascii) :
  forall cur, Split_from cur s delim <> [].
Proof.
  induction s as [|c s IH]; intros cur; simpl; [discriminate|].
  destruct (c =? delim)%char; [discriminate | apply IH].
Qed.

Lemma Split_from_single (s : str) (delim : ascii) :
  forall cur tok, Split_from cur s delim = [tok] -> tok = cur ++ s.
Proof.
  induction s as [|c s IH]; intros cur tok H; simpl in H.
  - inversion H. rewrite app_nil_r. reflexivity.
  - destruct (c =? delim)%char.
    + injection H as _ H. exfalso. exact (Split_from_nonempty _ _ _ H).
    + apply IH in H. rewrite <- app_assoc in H. exact H.
Qed.

Lemma WildMatchPath_empty_pattern (path : str) :
  WildMatchPath [] path = Ok true -> path = [].
Proof.
  unfold WildMatchPath, TokensMatch.
  change (Split [] slash) with [@nil ascii].
  cbn [TokensMatch_fuel length Nat.sub Nat.eqb nth_error].
  change (str_eqb [] (lit "**")) with false. cbv iota.
  destruct (Split path slash) as [|s stokens] eqn:Es.
  - exfalso. exact (Split_from_nonempty _ _ _ Es).
  - cbn [length Nat.eqb nth_error].
    rewrite SegmentMatch_empty_pattern. cbn [bind].
    destruct s as [|c s]; cbn [negb]; [|discriminate].
    cbn [TokensMatch_fuel length Nat.eqb].
    destruct stokens as [|s' stokens]; [|discriminate].
    intros _. apply Split_from_single in Es. symmetry. exact Es.
Qed.

(** A rule whose pattern is empty matches the empty comparison path and
    nothing else. *)
Lemma empty_pattern_inert (p : Pattern) (rel_path : str) (is_dir : bool) :
  pattern p = [] ->
  GitWildMatch p rel_path is_dir = Ok true ->
  compare_path p rel_path = Ok [].
Proof.
  intros Hp. unfold GitWildMatch.
  destruct (dir_only p && negb is_dir); [discriminate|].
  destruct (compare_path_total p rel_path) as [path Hc].
  rewrite Hc, Hp. cbn [bind].
  destruct (anchored p).
  - intros H. apply WildMatchPath_empty_pattern in H. subst path.
    reflexivity.
  - destruct (WildMatchPath_total [] path) as [b Hb]. rewrite Hb. cbn [bind].
    destruct b.
    + intros _. apply WildMatchPath_empty_pattern in Hb. subst path.
      reflexivity.
    + intros H.
      apply (suffix_loop_spec [] path (length path) 0 eq_refl) in H.
      destruct H as (j & _ & _ & Hlt & Hw).
      apply WildMatchPath_empty_pattern in Hw.
      apply (f_equal (@length _)) in Hw. rewrite length_skipn in Hw.
      simpl in Hw. lia.
Qed.

(** * The claims *)

(** C1: [IsIgnored] goes through the rules in stored order and returns the
    negation status of the last rule that structurally matches: the result
    is [negb (negated p)] for the last [p] on which [GitWildMatch] answers
    [true], and [false] when no rule matches.  With the rules "a", "!a" in
    that order the path "a" is not ignored; with "!a", "a" it is. *)
Theorem C1_last_match_wins :
  (forall patterns rel_path is_dir,
      IsIgnored patterns rel_path is_dir =
      Ok (last_match_wins patterns rel_path is_dir)) /\
  (forall before p after rel_path is_dir,
      GitWildMatch p rel_path is_dir = Ok true ->
      (forall q, In q after -> GitWildMatch q rel_path is_dir = Ok false) ->
      IsIgnored (before ++ p :: after) rel_path is_dir =
      Ok (negb (negated p))) /\
  (forall patterns rel_path is_dir,
      (forall q, In q patterns -> GitWildMatch q rel_path is_dir = Ok false) ->
      IsIgnored patterns rel_path is_dir = Ok false) /\
  LoadGitignoreSpec (Some (lit ("a" ++ nl ++ "!a"))) = Ok [rule_a; rule_not_a] /\
  LoadGitignoreSpec (Some (lit ("!a" ++ nl ++ "a"))) = Ok [rule_not_a; rule_a] /\
  (forall is_dir, IsIgnored [rule_a; rule_not_a] (lit "a") is_dir = Ok false) /\
  (forall is_dir, IsIgnored [rule_not_a; rule_a] (lit "a") is_dir = Ok true).
Proof.
  split; [|split; [|split; [|split; [|split; [|split]]]]].
  - intros. apply IsIgnored_last_match.
  - intros before p after rel_path is_dir Hp Hafter.
    rewrite IsIgnored_last_match. f_equal.
    apply last_match_wins_at.
    + apply ruleMatches_true. exact Hp.
    + intros q Hq. unfold ruleMatches. rewrite (Hafter q Hq). reflexivity.
  - intros patterns rel_path is_dir Hnone.
    rewrite IsIgnored_last_match. f_equal.
    apply last_match_wins_none.
    intros q Hq. unfold ruleMatches. rewrite (Hnone q Hq). reflexivity.
  - reflexivity.
  - reflexivity.
  - intros [|]; reflexivity.
  - intros [|]; reflexivity.
Qed.

Lemma C1_last_match_wins_witness :
  GitWildMatch rule_not_a (lit "a") false = Ok true /\
  (forall q, In q [rule_b] -> GitWildMatch q (lit "a") false = Ok false) /\
  IsIgnored ([rule_a] ++ rule_not_a :: [rule_b]) (lit "a") false = Ok false.
Proof.
  split; [reflexivity|].
  split; [intros q [<- | []]; reflexivity|].
  apply (proj1 (proj2 C1_last_match_wins) [rule_a] rule_not_a [rule_b]).
  - reflexivity.
  - intros q [<- | []]; reflexivity.
Defined.

(** C2: in the segment-sequence matcher a "**" token absorbs zero or more
    whole path segments: at such a token the match succeeds iff the rest of
    the pattern matches the path from some index [k] between the current
    path index and the number of path segments, both included.  So
    "a/**/b" matches "a/b", "a/x/b" and "a/x/y/b". *)
Theorem C2_double_star :
  (forall ptokens stokens pi si,
      nth_error ptokens pi = Some (lit "**") ->
      (exists b, TokensMatch ptokens stokens pi si = Ok b) /\
      (TokensMatch ptokens stokens pi si = Ok true <->
       exists k, si <= k <= length stokens /\
                 TokensMatch ptokens stokens (S pi) k = Ok true)) /\
  WildMatchPath (lit "a/**/b") (lit "a/b") = Ok true /\
  WildMatchPath (lit "a/**/b") (lit "a/x/b") = Ok true /\
  WildMatchPath (lit "a/**/b") (lit "a/x/y/b") = Ok true.
Proof.
  split; [|repeat split; reflexivity].
  intros ptokens stokens pi si Ep.
  assert (Hpi : pi < length ptokens) by (apply nth_error_Some; congruence).
  rewrite (@TokensMatch_step ptokens stokens pi si _ Ep), str_eqb_refl.
  assert (Hall : forall j, si <= j < si + (S (length stokens) - si) ->
                           exists b, TokensMatch ptokens stokens (S pi) j = Ok b).
  { intros j Hj. apply TokensMatch_total; lia. }
  split; [apply for_k_total; exact Hall|].
  rewrite for_k_true by exact Hall.
  split; intros (k & Hk & Hm); exists k; (split; [lia | exact Hm]).
Qed.

Lemma C2_double_star_witness :
  nth_error [lit "a"; lit "**"; lit "b"] 1 = Some (lit "**") /\
  (TokensMatch [lit "a"; lit "**"; lit "b"] [lit "a"; lit "x"; lit "b"] 1 1
   = Ok true <->
   exists k, 1 <= k <= 3 /\
     TokensMatch [lit "a"; lit "**"; lit "b"] [lit "a"; lit "x"; lit "b"] 2 k
     = Ok true).
Proof.
  split; [reflexivity|].
  apply (proj1 C2_double_star
           [lit "a"; lit "**"; lit "b"] [lit "a"; lit "x"; lit "b"] 1 1).
  reflexivity.
Defined.

(** C3: an anchored rule matches only at the start of the relative path
    (the whole comparison path against the whole pattern); an unanchored
    rule matches there or at a suffix of the comparison path that starts
    just after a '/'.  The rule compiled from "/build" makes "build"
    ignored and not "src/build"; the one compiled from "build" makes both
    ignored. *)
Theorem C3_anchoring :
  (forall p rel_path is_dir path,
      anchored p = true ->
      dir_only p && negb is_dir = false ->
      compare_path p rel_path = Ok path ->
      GitWildMatch p rel_path is_dir = WildMatchPath (pattern p) path) /\
  (forall p rel_path is_dir path,
      anchored p = false ->
      dir_only p && negb is_dir = false ->
      compare_path p rel_path = Ok path ->
      (GitWildMatch p rel_path is_dir = Ok true <->
       WildMatchPath (pattern p) path = Ok true \/
       exists i, nth_error path i = Some slash /\ S i < length path /\
                 WildMatchPath (pattern p) (skipn (S i) path) = Ok true)) /\
  (forall p rel_path is_dir path,
      anchored p = false ->
      dir_only p && negb is_dir = false ->
      compare_path p rel_path = Ok path ->
      EndsWith path (lit "/") = false ->
      (GitWildMatch p rel_path is_dir = Ok true <->
       WildMatchPath (pattern p) path = Ok true \/
       exists i, nth_error path i = Some slash /\
                 WildMatchPath (pattern p) (skipn (S i) path) = Ok true)) /\
  LoadGitignoreSpec (Some (lit "/build")) = Ok [rule_build_anchored] /\
  LoadGitignoreSpec (Some (lit "build")) = Ok [rule_build] /\
  (forall is_dir,
      IsIgnored [rule_build_anchored] (lit "build") is_dir = Ok true /\
      IsIgnored [rule_build_anchored] (lit "src/build") is_dir = Ok false /\
      IsIgnored [rule_build] (lit "build") is_dir = Ok true /\
      IsIgnored [rule_build] (lit "src/build") is_dir = Ok true).
Proof.
  assert (Hun : forall p rel_path is_dir path,
      anchored p = false ->
      dir_only p && negb is_dir = false ->
      compare_path p rel_path = Ok path ->
      (GitWildMatch p rel_path is_dir = Ok true <->
       WildMatchPath (pattern p) path = Ok true \/
       exists i, nth_error path i = Some slash /\ S i < length path /\
                 WildMatchPath (pattern p) (skipn (S i) path) = Ok true)).
  { intros p rel_path is_dir path Ha Hd Hc.
    unfold GitWildMatch. rewrite Hd, Hc, Ha. cbn [bind].
    destruct (WildMatchPath_total (pattern p) path) as [b Hb].
    rewrite Hb. cbn [bind].
    destruct (suffix_loop_spec (pattern p) path (length path) 0 eq_refl)
      as [_ Hs].
    destruct b.
    + split; [intros _; left; reflexivity | reflexivity].
    + rewrite Hs. split.
      * intros (j & _ & Hj). right. exists j. exact Hj.
      * intros [H | (j & Hj)]; [discriminate|].
        exists j. split; [lia | exact Hj]. }
  split; [|split; [exact Hun|split; [|split; [|split]]]].
  - intros p rel_path is_dir path Ha Hd Hc.
    unfold GitWildMatch. rewrite Hd, Hc, Ha. reflexivity.
  - intros p rel_path is_dir path Ha Hd Hc He.
    rewrite (Hun p rel_path is_dir path Ha Hd Hc).
    split; (intros [H | (i & H)]; [left; exact H | right; exists i]).
    + destruct H as (Hi & _ & Hw). split; assumption.
    + destruct H as (Hi & Hw). split; [exact Hi|]. split; [|exact Hw].
      assert (Hlt : i < length path) by (apply nth_error_Some; congruence).
      destruct (Nat.eq_dec (S i) (length path)) as [E|NE]; [|lia].
      rewrite (EndsWith_last_slash _ Hi E) in He. discriminate.
  - reflexivity.
  - reflexivity.
  - intros [|]; repeat split; reflexivity.
Qed.

Lemma C3_anchoring_witness :
  anchored rule_build = false /\
  dir_only rule_build && negb false = false /\
  compare_path rule_build (lit "src/build") = Ok (lit "src/build") /\
  (GitWildMatch rule_build (lit "src/build") false = Ok true <->
   WildMatchPath (lit "build") (lit "src/build") = Ok true \/
   exists i, nth_error (lit "src/build") i = Some slash /\
             S i < length (lit "src/build") /\
             WildMatchPath (lit "build") (skipn (S i) (lit "src/build"))
             = Ok true).
Proof.
  repeat split; try reflexivity;
    apply (proj1 (proj2 C3_anchoring) rule_build (lit "src/build") false
             (lit "src/build")); reflexivity.
Defined.

(** C5: a rule with [dir_only] set never matches an entry that is not a
    directory, whatever the path; the rule compiled from "logs/" makes a
    directory "logs" ignored and leaves a regular file "logs" alone. *)
Theorem C5_dir_only :
  (forall p rel_path,
      dir_only p = true -> GitWildMatch p rel_path false = Ok false) /\
  LoadGitignoreSpec (Some (lit "logs/")) = Ok [rule_logs] /\
  IsIgnored [rule_logs] (lit "logs") true = Ok true /\
  IsIgnored [rule_logs] (lit "logs") false = Ok false.
Proof.
  split; [|repeat split; reflexivity].
  intros p rel_path Hd. unfold GitWildMatch. rewrite Hd. reflexivity.
Qed.

Lemma C5_dir_only_witness :
  dir_only rule_logs = true /\
  GitWildMatch rule_logs (lit "logs") false = Ok false.
Proof.
  split; [reflexivity|].
  apply (proj1 C5_dir_only rule_logs (lit "logs")). reflexivity.
Defined.

(** What holds of the single-segment matcher: it never accepts outside the
    glob language, it decides that language on every text without a ['*']
    of its own, the empty pattern matches the empty text only, and the
    segments it is given hold no ['/']. *)
Lemma SegmentMatch_facts :
  (forall pat text, exists b, SegmentMatch pat text = Ok b) /\
  (forall pat text,
      SegmentMatch pat text = Ok true -> glob_spec pat text = true) /\
  (forall pat text,
      ~ In star_c text -> SegmentMatch pat text = Ok (glob_spec pat text)) /\
  (forall text, SegmentMatch [] text = Ok true <-> text = []) /\
  (forall path tok, In tok (Split path slash) -> ~ In slash tok) /\
  (forall neg d a is_dir,
      GitWildMatch (mkPattern (lit "a*b") neg d a) (lit "a/b") is_dir
      = Ok false) /\
  WildMatchPath (lit "*.txt") (lit "sub/notes.txt") = Ok false /\
  WildMatchPath (lit "*.txt") (lit "notes.txt") = Ok true /\
  ignored_by "*.txt" "sub/notes.txt" false = Ok true.
Proof.
  split; [exact SegmentMatch_total|].
  split; [exact SegmentMatch_sound|].
  split; [intros pat text H; apply SegmentMatch_glob; exact H|].
  split.
  { intros text. rewrite SegmentMatch_empty_pattern.
    destruct text; split; congruence. }
  split; [intros path tok; apply Split_no_delim|].
  split; [intros [|] [|] [|] [|]; reflexivity|].
  repeat split; reflexivity.
Qed.

(** C4: the single-segment matcher is to support ['*'] as any run of
    characters of the segment and ['?'] as exactly one character.  On the
    pattern "*" and the file name "*x", and on "*a" and "*ba", the glob
    language has a match and the code answers no match: the ['*'] of the
    pattern is compared with the text as a literal first, and no star is
    remembered to fall back on.  The rules "*" and "*a" leave the files
    "*x" and "*ba" unignored. *)
Theorem C4_star_taken_literally :
  glob_spec (lit "*") (lit "*x") = true /\
  SegmentMatch (lit "*") (lit "*x") = Ok false /\
  SegmentMatch (lit "*") (lit "yx") = Ok true /\
  glob_spec (lit "*a") (lit "*ba") = true /\
  SegmentMatch (lit "*a") (lit "*ba") = Ok false /\
  SegmentMatch (lit "*a") (lit "xba") = Ok true /\
  ignored_by "*" "*x" false = Ok false /\
  ignored_by "*" "yx" false = Ok true /\
  ignored_by "*a" "*ba" false = Ok false /\
  ignored_by "*a" "xba" false = Ok true.
Proof.
  repeat split; reflexivity.
Qed.

(** C6: every stored rule is to have a non-empty pattern, a line that
    reduces to nothing being discarded.  On the lines "/" and "//" the code
    stores a rule all the same, with the empty pattern: the emptiness test
    is made after trimming and after the removal of ['!'], not after the
    removal of the slashes. *)
Theorem C6_slash_line_stored :
  LoadGitignoreSpec (Some (lit "/")) = Ok [mkPattern [] false true false] /\
  LoadGitignoreSpec (Some (lit "//")) = Ok [mkPattern [] false true true] /\
  LoadGitignoreSpec (Some (lit "!")) = Ok [].
Proof.
  repeat split; reflexivity.
Qed.

(** C7: compilation is total and makes no rule of an unusable line: it
    answers on every input text, and a line that is empty after trimming,
    a line whose first character after trimming is ['#'], and a line made
    of ['!'] and white space contribute nothing to the rule set. *)
Theorem C7_compile_total :
  (forall file, exists rules, LoadGitignoreSpec file = Ok rules) /\
  (forall line, unusable line -> compile_line line = Ok None) /\
  (forall before line after rest,
      unusable line ->
      Forall no_LF (before ++ line :: after) ->
      LoadGitignoreSpec
        (Some (unlines (before ++ line :: after) ++ rest)) =
      LoadGitignoreSpec (Some (unlines (before ++ after) ++ rest))) /\
  (forall before line,
      unusable line -> Forall no_LF before -> no_LF line ->
      LoadGitignoreSpec (Some (unlines before ++ line)) =
      LoadGitignoreSpec (Some (unlines before))).
Proof.
  split; [|split; [|split]].
  - intros [text|]; [apply compile_lines_total | eexists; reflexivity].
  - exact unusable_skipped.
  - intros before line after rest Hu Hlf. simpl.
    rewrite !getlines_unlines_app.
    + rewrite <- !app_assoc. simpl.
      apply compile_lines_skip. apply unusable_skipped. exact Hu.
    + apply Forall_app in Hlf. destruct Hlf as [Hb Ha].
      apply Forall_app. split; [exact Hb|].
      inversion Ha; assumption.
    + exact Hlf.
  - intros before line Hu Hb Hl. simpl.
    rewrite <- (app_nil_r (unlines before)) at 2.
    rewrite !getlines_unlines_app by exact Hb.
    unfold getlines. rewrite getlines_from_last by exact Hl. simpl.
    destruct line as [|c line]; [reflexivity|].
    rewrite <- (app_nil_r (before ++ [c :: line])), <- app_assoc. simpl.
    rewrite compile_lines_skip by (apply unusable_skipped; exact Hu).
    reflexivity.
Qed.

Lemma C7_compile_total_witness :
  unusable (lit "! ") /\
  Forall no_LF ([lit "a"] ++ lit "! " :: [lit "b"]) /\
  LoadGitignoreSpec
    (Some (unlines ([lit "a"] ++ lit "! " :: [lit "b"]) ++ lit "c")) =
  LoadGitignoreSpec (Some (unlines ([lit "a"] ++ [lit "b"]) ++ lit "c")).
Proof.
  assert (Hu : unusable (lit "! ")).
  { right. right. exists [SP]. split; [reflexivity|].
    constructor; [reflexivity | constructor]. }
  assert (Hlf : Forall no_LF ([lit "a"] ++ lit "! " :: [lit "b"])).
  { repeat constructor; unfold no_LF; simpl; intros H;
      repeat (destruct H as [H | H]; [discriminate H|]); exact H. }
  split; [exact Hu|]. split; [exact Hlf|].
  apply (proj1 (proj2 (proj2 C7_compile_total))); assumption.
Defined.

(** C8: a line that compiles to the pattern "**" is stored with
    [dir_only = false], also when its trailing slash had set the flag, as
    in "**/". *)
Theorem C8_bare_double_star :
  (forall line p,
      compile_line line = Ok (Some p) ->
      pattern p = lit "**" -> dir_only p = false) /\
  (forall file rules p,
      LoadGitignoreSpec file = Ok rules -> In p rules ->
      pattern p = lit "**" -> dir_only p = false) /\
  LoadGitignoreSpec (Some (lit "**/")) =
    Ok [mkPattern (lit "**") false false false] /\
  LoadGitignoreSpec (Some (lit "x/")) =
    Ok [mkPattern (lit "x") false true false].
Proof.
  split; [exact compile_line_double_star|].
  split; [|split; reflexivity].
  intros [text|] rules p H Hin Hp; simpl in H.
  - eapply compile_lines_In in Hin; [|exact H].
    destruct Hin as [[] | (l & _ & Hl)].
    eapply compile_line_double_star; eassumption.
  - inversion H; subst. destruct Hin.
Qed.

Lemma C8_bare_double_star_witness :
  compile_line (lit "**/") = Ok (Some (mkPattern (lit "**") false false false)) /\
  dir_only (mkPattern (lit "**") false false false) = false.
Proof.
  split; [reflexivity|].
  apply (proj1 C8_bare_double_star (lit "**/")); reflexivity.
Defined.

(** C10: [TokensMatch] terminates on every input: whatever the token
    lists and the two starting indices, [size - pi + 1] levels of
    recursion are never exhausted, since every call, in the "**" branch
    and in the literal branch, recurses at [pi + 1]; with in-range indices
    it returns a boolean, and more fuel changes nothing. *)
Theorem C10_TokensMatch_terminates :
  (forall ptokens stokens pi si,
      TokensMatch ptokens stokens pi si <> OutOfFuel) /\
  (forall ptokens stokens pi si,
      pi <= length ptokens -> si <= length stokens ->
      exists b, TokensMatch ptokens stokens pi si = Ok b) /\
  (forall fuel ptokens stokens pi si,
      length ptokens - pi < fuel ->
      TokensMatch_fuel fuel ptokens stokens pi si =
      TokensMatch ptokens stokens pi si) /\
  (forall ptokens stokens pi si p,
      nth_error ptokens pi = Some p ->
      TokensMatch ptokens stokens pi si =
        if str_eqb p (lit "**") then
          for_k (fun k => TokensMatch ptokens stokens (S pi) k)
                si (S (length stokens) - si)
        else if (si =? length stokens)%nat then Ok false
        else
          match nth_error stokens si with
          | None => Fault
          | Some s =>
              b <- SegmentMatch p s ;;
              if negb b then Ok false
              else TokensMatch ptokens stokens (S pi) (S si)
          end).
Proof.
  split; [|split; [|split]].
  - intros. apply TokensMatch_fuel_enough. lia.
  - intros. apply TokensMatch_total; assumption.
  - intros. apply TokensMatch_fuel_irrelevant; lia.
  - intros. apply TokensMatch_step. assumption.
Qed.

Lemma C10_TokensMatch_terminates_witness :
  1 <= length [lit "a"; lit "**"] /\ 0 <= length [lit "a"; lit "x"] /\
  exists b, TokensMatch [lit "a"; lit "**"] [lit "a"; lit "x"] 1 0 = Ok b.
Proof.
  split; [simpl; lia|]. split; [simpl; lia|].
  apply (proj1 (proj2 C10_TokensMatch_terminates)); simpl; lia.
Defined.

(** * Further properties *)

Unset Implicit Arguments.

(** ** [Trim] *)

Lemma trim_fwd_drop (rest : str) :
  forall i, i <= trim_fwd rest i /\
            skipn (trim_fwd rest i - i) rest = drop_ws rest.
Proof.
  induction rest as [|c r IH]; intros i; simpl.
  - split; [lia | rewrite skipn_nil; reflexivity].
  - destruct (is_ws c).
    + destruct (IH (S i)) as [Hle Hs]. split; [lia|].
      replace (trim_fwd r (S i) - i) with (S (trim_fwd r (S i) - S i)) by lia.
      exact Hs.
    + split; [lia|]. rewrite Nat.sub_diag. reflexivity.
Qed.

Lemma firstn_S_nth_error (A : Type) (l : list A) :
  forall k x, nth_error l k = Some x -> firstn (S k) l = firstn k l ++ [x].
Proof.
  induction l as [|a l IH]; intros [|k] x H; simpl in *; try discriminate.
  - congruence.
  - f_equal. apply IH. exact H.
Qed.

Lemma drop_ws_end_snoc (x : str) (c : ascii) :
  drop_ws_end (x ++ [c]) = if is_ws c then drop_ws_end x else x ++ [c].
Proof.
  unfold drop_ws_end. rewrite rev_app_distr. simpl.
  destruct (is_ws c); [reflexivity|].
  simpl. rewrite rev_involutive. reflexivity.
Qed.

Lemma trim_back_drop (s : str) (i : nat) :
  forall j,
    i <= j <= length s ->
    i <= trim_back s i j /\
    firstn (trim_back s i j - i) (skipn i s) =
    drop_ws_end (firstn (j - i) (skipn i s)).
Proof.
  induction j as [|j IH]; intros Hj.
  - simpl. split; [lia|]. reflexivity.
  - cbn [trim_back].
    destruct (Nat.ltb_spec i (S j)) as [Hlt|Hge]; cbn [andb].
    + destruct (nth_error s j) as [c|] eqn:Ec.
      2:{ apply nth_error_None in Ec. lia. }
      assert (Hc : nth_error (skipn i s) (j - i) = Some c).
      { rewrite nth_error_skipn. replace (i + (j - i)) with j by lia.
        exact Ec. }
      replace (S j - i) with (S (j - i)) by lia.
      rewrite (firstn_S_nth_error _ _ _ _ Hc), drop_ws_end_snoc.
      destruct (is_ws c).
      * apply IH. lia.
      * split; [lia|].
        replace (S j - i) with (S (j - i)) by lia.
        apply firstn_S_nth_error. exact Hc.
    + split; [lia|]. replace (S j - i) with 0 by lia. reflexivity.
Qed.

(** [Trim] takes the white space off both ends. *)
Lemma Trim_strip (s : str) : Trim s = Ok (drop_ws_end (drop_ws s)).
Proof.
  unfold Trim, substr.
  destruct (trim_fwd_drop s 0) as [_ Hf]. rewrite Nat.sub_0_r in Hf.
  pose proof (trim_fwd_le s 0) as Hle. simpl in Hle.
  destruct (Nat.leb_spec (trim_fwd s 0) (length s)); [|lia].
  destruct (trim_back_drop s (trim_fwd s 0) (length s)) as [_ Hb]; [lia|].
  rewrite Hb, <- length_skipn, firstn_all, Hf. reflexivity.
Qed.

Lemma drop_ws_split (s : str) :
  exists a, s = a ++ drop_ws s /\ all_ws a.
Proof.
  induction s as [|c r (a & Ha & Hws)]; simpl.
  - exists []. split; [reflexivity | constructor].
  - destruct (is_ws c) eqn:Ec.
    + exists (c :: a). split; [simpl; f_equal; exact Ha|].
      constructor; assumption.
    + exists []. split; [reflexivity | constructor].
Qed.

Lemma drop_ws_head (s : str) (c : ascii) (r : str) :
  drop_ws s = c :: r -> is_ws c = false.
Proof.
  induction s as [|a s IH]; simpl; [discriminate|].
  destruct (is_ws a) eqn:Ea; [exact IH|].
  intros H. inversion H; subst. exact Ea.
Qed.

Lemma drop_ws_fixed (s : str) :
  (forall c r, s = c :: r -> is_ws c = false) -> drop_ws s = s.
Proof.
  destruct s as [|c r]; intros H; [reflexivity|].
  simpl. rewrite (H c r eq_refl). reflexivity.
Qed.

Lemma drop_ws_all (a x : str) : all_ws a -> drop_ws (a ++ x) = drop_ws x.
Proof.
  induction 1 as [|c a Hc _ IH]; simpl; [reflexivity|].
  rewrite Hc. exact IH.
Qed.

Lemma all_ws_rev (a : str) : all_ws a -> all_ws (rev a).
Proof.
  unfold all_ws. rewrite !Forall_forall.
  intros H c Hc. apply H. apply in_rev. exact Hc.
Qed.

Lemma drop_ws_end_split (s : str) :
  exists b, s = drop_ws_end s ++ b /\ all_ws b.
Proof.
  unfold drop_ws_end.
  destruct (drop_ws_split (rev s)) as (a & Ha & Hws).
  exists (rev a). split; [|apply all_ws_rev; exact Hws].
  rewrite <- rev_app_distr, <- Ha, rev_involutive. reflexivity.
Qed.

Lemma drop_ws_end_last (s r : str) (c : ascii) :
  drop_ws_end s = r ++ [c] -> is_ws c = false.
Proof.
  unfold drop_ws_end. intros H.
  apply (f_equal (@rev _)) in H.
  rewrite rev_involutive, rev_app_distr in H. simpl in H.
  eapply drop_ws_head. exact H.
Qed.

Lemma drop_ws_end_all (x b : str) :
  all_ws b -> drop_ws_end (x ++ b) = drop_ws_end x.
Proof.
  intros Hb. unfold drop_ws_end.
  rewrite rev_app_distr, drop_ws_all by (apply all_ws_rev; exact Hb).
  reflexivity.
Qed.

Lemma drop_ws_end_fixed (s : str) :
  (forall r c, s = r ++ [c] -> is_ws c = false) -> drop_ws_end s = s.
Proof.
  intros H. unfold drop_ws_end.
  rewrite drop_ws_fixed; [apply rev_involutive|].
  intros c r E. apply (H (rev r) c).
  rewrite <- (rev_involutive s), E. reflexivity.
Qed.

(** Taking off the trailing white space leaves the head of the string
    alone, unless nothing is left. *)
Lemma drop_ws_end_head (s : str) (c : ascii) (r : str) :
  drop_ws_end s = c :: r -> exists r', s = c :: r'.
Proof.
  intros H. destruct (drop_ws_end_split s) as (b & Hb & _).
  rewrite H in Hb. simpl in Hb. eexists. exact Hb.
Qed.

Lemma drop_ws_all_nil (b : str) : all_ws b -> drop_ws b = [].
Proof.
  intros Hb. rewrite <- (app_nil_r b). rewrite drop_ws_all by exact Hb.
  reflexivity.
Qed.

Lemma drop_ws_app (s b : str) :
  drop_ws (s ++ b) =
  match drop_ws s with
  | [] => drop_ws b
  | _ :: _ => drop_ws s ++ b
  end.
Proof.
  induction s as [|c s IH]; simpl.
  - destruct (drop_ws b); reflexivity.
  - destruct (is_ws c); [exact IH | reflexivity].
Qed.

Lemma strip_outer_space (a s b : str) :
  all_ws a -> all_ws b ->
  drop_ws_end (drop_ws (a ++ s ++ b)) = drop_ws_end (drop_ws s).
Proof.
  intros Ha Hb. rewrite drop_ws_all by exact Ha.
  rewrite drop_ws_app. destruct (drop_ws s) as [|c r] eqn:E.
  - rewrite drop_ws_all_nil by exact Hb. reflexivity.
  - apply drop_ws_end_all. exact Hb.
Qed.

(** [Trim] returns the string between its leading and its trailing white
    space: what it cuts off is white space only, and what it returns neither
    starts nor ends with white space. *)
Theorem Trim_characterised (s : str) :
  exists a t b,
    Trim s = Ok t /\ s = a ++ t ++ b /\ all_ws a /\ all_ws b /\
    (forall c r, t = c :: r -> is_ws c = false) /\
    (forall r c, t = r ++ [c] -> is_ws c = false).
Proof.
  destruct (drop_ws_split s) as (a & Ha & Hwa).
  destruct (drop_ws_end_split (drop_ws s)) as (b & Hb & Hwb).
  exists a, (drop_ws_end (drop_ws s)), b.
  split; [apply Trim_strip|].
  split; [rewrite <- Hb; exact Ha|].
  split; [exact Hwa|]. split; [exact Hwb|].
  split.
  - intros c r E. apply drop_ws_end_head in E. destruct E as [r' E].
    eapply drop_ws_head. exact E.
  - intros r c E. eapply drop_ws_end_last. exact E.
Qed.

(** White space around a string does not change what [Trim] returns. *)
Theorem Trim_ignores_outer_space (a s b : str) :
  all_ws a -> all_ws b -> Trim (a ++ s ++ b) = Trim s.
Proof.
  intros Ha Hb. rewrite !Trim_strip. f_equal.
  apply strip_outer_space; assumption.
Qed.

Lemma Trim_ignores_outer_space_witness :
  all_ws (lit "  ") /\ all_ws [TAB; CR] /\
  Trim (lit "  " ++ lit "a b" ++ [TAB; CR]) = Trim (lit "a b").
Proof.
  assert (Ha : all_ws (lit "  ")) by (repeat constructor).
  assert (Hb : all_ws [TAB; CR]) by (repeat constructor).
  split; [exact Ha|]. split; [exact Hb|].
  apply (Trim_ignores_outer_space (lit "  ") (lit "a b") [TAB; CR] Ha Hb).
Defined.

(** [Trim] is idempotent. *)
Theorem Trim_idempotent (s t : str) : Trim s = Ok t -> Trim t = Ok t.
Proof.
  intros H.
  destruct (Trim_characterised s) as (a & t' & b & Ht & _ & _ & _ & Hh & Hl).
  assert (t' = t) by congruence. subst t'.
  rewrite Trim_strip, drop_ws_fixed by exact Hh.
  rewrite drop_ws_end_fixed by exact Hl. reflexivity.
Qed.

Lemma Trim_idempotent_witness :
  Trim (lit " x ") = Ok (lit "x") /\ Trim (lit "x") = Ok (lit "x").
Proof.
  split; [reflexivity|].
  apply (Trim_idempotent (lit " x ") (lit "x")). reflexivity.
Defined.

(** ** [StartsWith] and [EndsWith] *)

Lemma firstn_prefix (A : Type) (p s : list A) :
  firstn (length p) s = p <-> exists r, s = p ++ r.
Proof.
  split.
  - intros H. exists (skipn (length p) s).
    rewrite <- H at 1. symmetry. apply firstn_skipn.
  - intros [r ->]. rewrite firstn_app, Nat.sub_diag, firstn_all. simpl.
    apply app_nil_r.
Qed.

(** [StartsWith] holds exactly of the strings that have the prefix, and
    [EndsWith] of those that have the suffix. *)
Theorem StartsWith_EndsWith_spec (s x : str) :
  (StartsWith s x = true <-> exists r, s = x ++ r) /\
  (EndsWith s x = true <-> exists r, s = r ++ x).
Proof.
  split.
  - unfold StartsWith. rewrite andb_true_iff, str_eqb_eq, (@firstn_prefix ascii x s).
    split; [intros [_ H]; exact H|].
    intros [r ->]. split; [|exists r; reflexivity].
    apply Nat.leb_le. rewrite length_app. lia.
  - unfold EndsWith. rewrite andb_true_iff, str_eqb_eq, Nat.leb_le.
    split.
    + intros [_ H]. exists (firstn (length s - length x) s).
      pose proof (firstn_skipn (length s - length x) s) as E.
      rewrite H in E. symmetry. exact E.
    + intros [r ->]. rewrite length_app. split; [lia|].
      replace (length r + length x - length x) with (length r) by lia.
      rewrite skipn_app, skipn_all, Nat.sub_diag. reflexivity.
Qed.

(** ** [Split] *)

Lemma join_Split_from (delim : ascii) (s : str) :
  forall cur, join delim (Split_from cur s delim) = cur ++ s.
Proof.
  induction s as [|c s IH]; intros cur; simpl.
  - symmetry. apply app_nil_r.
  - destruct (c =? delim)%char eqn:Ec.
    + apply Ascii.eqb_eq in Ec. subst c.
      destruct (Split_from [] s delim) as [|t ts] eqn:Es.
      * exfalso. exact (Split_from_nonempty _ _ _ Es).
      * change (join delim (cur :: t :: ts))
          with (cur ++ delim :: join delim (t :: ts)).
        rewrite <- Es, IH. reflexivity.
    + rewrite IH, <- app_assoc. reflexivity.
Qed.

Lemma Split_from_length (delim : ascii) (s : str) :
  forall cur, length (Split_from cur s delim) = S (count_occ ascii_dec s delim).
Proof.
  induction s as [|c s IH]; intros cur; simpl; [reflexivity|].
  destruct (Ascii.eqb_spec c delim) as [->|NE].
  - destruct (ascii_dec delim delim); [|congruence].
    simpl. rewrite IH. reflexivity.
  - destruct (ascii_dec c delim); [congruence|]. apply IH.
Qed.

(** [Split] cuts the string at every delimiter and nowhere else: the
    tokens, joined with the delimiter, give the string back; no token holds
    the delimiter; there is one token more than there are delimiters. *)
Theorem Split_join (s : str) (delim : ascii) :
  join delim (Split s delim) = s /\
  Forall (fun tok => ~ In delim tok) (Split s delim) /\
  length (Split s delim) = S (count_occ ascii_dec s delim).
Proof.
  split; [apply (join_Split_from delim s [])|].
  split; [|apply Split_from_length].
  apply Forall_forall. intros tok. apply Split_no_delim.
Qed.

Lemma Split_from_app (delim : ascii) (a b : str) :
  forall cur,
    Split_from cur (a ++ delim :: b) delim =
    Split_from cur a delim ++ Split_from [] b delim.
Proof.
  induction a as [|c a IH]; intros cur; simpl.
  - rewrite Ascii.eqb_refl. reflexivity.
  - destruct (c =? delim)%char; [rewrite IH; reflexivity | apply IH].
Qed.

Lemma Split_from_token (delim : ascii) (t : str) :
  ~ In delim t -> forall cur, Split_from cur t delim = [cur ++ t].
Proof.
  induction t as [|c t IH]; intros Ht cur; simpl.
  - rewrite app_nil_r. reflexivity.
  - destruct (Ascii.eqb_spec c delim) as [->|NE].
    + exfalso. apply Ht. left. reflexivity.
    + rewrite IH by (intros H; apply Ht; right; exact H).
      rewrite <- app_assoc. reflexivity.
Qed.

(** The same the other way round: a non-empty list of tokens without the
    delimiter is what [Split] makes of their join. *)
Theorem Split_of_join (delim : ascii) (tokens : list str) :
  tokens <> [] ->
  Forall (fun tok => ~ In delim tok) tokens ->
  Split (join delim tokens) delim = tokens.
Proof.
  intros Hne Hall. unfold Split. revert Hne.
  induction Hall as [|t ts Ht Hts IH]; intros Hne;
    [exfalso; apply Hne; reflexivity|].
  destruct ts as [|t' ts].
  - simpl. apply (Split_from_token delim t Ht []).
  - change (join delim (t :: t' :: ts))
      with (t ++ delim :: join delim (t' :: ts)).
    rewrite Split_from_app, (Split_from_token delim t Ht []), IH
      by discriminate.
    reflexivity.
Qed.

Lemma Split_of_join_witness :
  [lit "src"; []; lit "a.c"] <> [] /\
  Forall (fun tok => ~ In slash tok) [lit "src"; []; lit "a.c"] /\
  Split (join slash [lit "src"; []; lit "a.c"]) slash
  = [lit "src"; []; lit "a.c"].
Proof.
  assert (Hall : Forall (fun tok => ~ In slash tok) [lit "src"; []; lit "a.c"]).
  { repeat constructor; simpl; intros H;
      repeat (destruct H as [H | H]; [discriminate H|]); exact H. }
  split; [discriminate|]. split; [exact Hall|].
  apply (Split_of_join slash [lit "src"; []; lit "a.c"]);
    [discriminate | exact Hall].
Defined.

(** ** [SegmentMatch] *)

Lemma SegmentMatch_loop_more_fuel (pat text : str) (fuel : nat) :
  forall pi ti star_pi star_ti b extra,
    SegmentMatch_loop fuel pat text pi ti star_pi star_ti = Ok b ->
    SegmentMatch_loop (fuel + extra) pat text pi ti star_pi star_ti = Ok b.
Proof.
  induction fuel as [|fuel IH]; intros pi ti spi sti b extra H;
    [discriminate|].
  cbn [SegmentMatch_loop Nat.add] in *.
  destruct (nth_error text ti) as [tc|]; [|exact H].
  destruct (nth_error pat pi) as [pc|].
  - destruct ((pc =? quest_c)%char || (pc =? tc)%char); [apply IH; exact H|].
    destruct (pc =? star_c)%char; [apply IH; exact H|].
    destruct spi; [apply IH; exact H | exact H].
  - destruct spi; [apply IH; exact H | exact H].
Qed.

(** The loop of [SegmentMatch] ends: on a pattern of [m] characters and a
    text of [n] it runs at most [((n+1)(m+1)+m)(n+1)+n+1] iterations, and
    allowing it more changes nothing. *)
Theorem SegmentMatch_iterations (pat text : str) (fuel : nat) :
  segment_fuel pat text <= fuel ->
  exists b,
    SegmentMatch pat text = Ok b /\
    SegmentMatch_loop fuel pat text 0 0 None None = Ok b.
Proof.
  intros Hf. destruct (SegmentMatch_total pat text) as [b Hb].
  exists b. split; [exact Hb|].
  replace fuel with (segment_fuel pat text + (fuel - segment_fuel pat text))
    by lia.
  apply SegmentMatch_loop_more_fuel. exact Hb.
Qed.

Lemma SegmentMatch_iterations_witness :
  segment_fuel (lit "a*b") (lit "axxb") <= 200 /\
  exists b,
    SegmentMatch (lit "a*b") (lit "axxb") = Ok b /\
    SegmentMatch_loop 200 (lit "a*b") (lit "axxb") 0 0 None None = Ok b.
Proof.
  assert (H : segment_fuel (lit "a*b") (lit "axxb") <= 200)
    by (vm_compute; lia).
  split; [exact H|].
  apply (SegmentMatch_iterations (lit "a*b") (lit "axxb") 200 H).
Defined.

(** [SegmentMatch] never accepts a text outside the glob language of its
    pattern, and on a text that holds no ['*'] of its own it accepts that
    language exactly. *)
Theorem SegmentMatch_against_glob (pat text : str) :
  (SegmentMatch pat text = Ok true -> glob_spec pat text = true) /\
  (~ In star_c text -> SegmentMatch pat text = Ok (glob_spec pat text)).
Proof.
  split; [apply SegmentMatch_sound | apply SegmentMatch_glob].
Qed.

Lemma SegmentMatch_against_glob_witness :
  ~ In star_c (lit "notes.txt") /\
  SegmentMatch (lit "*.t?t") (lit "notes.txt")
  = Ok (glob_spec (lit "*.t?t") (lit "notes.txt")).
Proof.
  assert (H : ~ In star_c (lit "notes.txt")).
  { simpl. intros H.
    repeat (destruct H as [H | H]; [discriminate H|]). exact H. }
  split; [exact H|].
  apply (proj2 (SegmentMatch_against_glob (lit "*.t?t") (lit "notes.txt")) H).
Defined.

Lemma no_star_skipn (p : str) (k : nat) : no_star p -> no_star (skipn k p).
Proof.
  intros H Hin. apply H. revert Hin. generalize p. clear.
  induction k as [|k IH]; intros p Hin; [exact Hin|].
  destruct p as [|c p]; [destruct Hin|]. right. apply IH. exact Hin.
Qed.

Lemma all_stars_no_star (p : str) :
  no_star p -> all_stars p = match p with [] => true | _ :: _ => false end.
Proof.
  destruct p as [|c p]; intros H; [reflexivity|].
  simpl. destruct (Ascii.eqb_spec c star_c) as [->|NE]; [|reflexivity].
  exfalso. apply H. left. reflexivity.
Qed.

Lemma SegmentMatch_loop_literal (pat text : str) (fuel : nat) :
  no_star pat ->
  forall pi ti star_ti b,
    pi <= length pat ->
    SegmentMatch_loop fuel pat text pi ti None star_ti = Ok b ->
    b = literal_match (skipn pi pat) (skipn ti text).
Proof.
  intros Hns. induction fuel as [|fuel IH]; intros pi ti sti b Hpi H;
    [discriminate|].
  cbn [SegmentMatch_loop] in H.
  destruct (nth_error text ti) as [tc|] eqn:Et.
  - rewrite (nth_error_skipn_cons _ _ Et).
    destruct (nth_error pat pi) as [pc|] eqn:Ep.
    + rewrite (nth_error_skipn_cons _ _ Ep).
      assert (Hlt : pi < length pat) by (apply nth_error_Some; congruence).
      cbn [literal_match].
      destruct ((pc =? quest_c)%char || (pc =? tc)%char).
      * apply IH in H; [exact H | lia].
      * destruct (Ascii.eqb_spec pc star_c) as [->|NE].
        -- exfalso. apply Hns. eapply nth_error_In. exact Ep.
        -- injection H as <-. reflexivity.
    + rewrite skipn_all2 by (apply nth_error_None; exact Ep).
      injection H as <-. reflexivity.
  - injection H as <-.
    rewrite (skipn_all2 text) by (apply nth_error_None; exact Et).
    replace (length pat) with (pi + length (skipn pi pat))
      by (rewrite length_skipn; lia).
    rewrite skip_stars_spec, all_stars_no_star
      by (apply no_star_skipn; exact Hns).
    destruct (skipn pi pat); reflexivity.
Qed.

Lemma literal_match_length (p : str) :
  forall t, literal_match p t = true -> length t = length p.
Proof.
  induction p as [|pc p IH]; intros [|tc t] H; simpl in *;
    try discriminate; [reflexivity|].
  apply andb_true_iff in H. destruct H as [_ H].
  f_equal. apply IH. exact H.
Qed.

Lemma str_eqb_cons (a b : ascii) (p t : str) :
  str_eqb (a :: p) (b :: t) = (a =? b)%char && str_eqb p t.
Proof.
  unfold str_eqb.
  destruct (list_eq_dec ascii_dec (a :: p) (b :: t)) as [E|NE];
    destruct (Ascii.eqb_spec a b) as [Eab|Nab];
    destruct (list_eq_dec ascii_dec p t) as [Ept|Npt];
    simpl; try reflexivity; congruence.
Qed.

Lemma literal_match_eq (p : str) :
  ~ In quest_c p -> forall t, literal_match p t = str_eqb p t.
Proof.
  induction p as [|pc p IH]; intros Hq [|tc t]; simpl; try reflexivity.
  destruct (Ascii.eqb_spec pc quest_c) as [->|NQ].
  { exfalso. apply Hq. left. reflexivity. }
  rewrite IH by (intros H; apply Hq; right; exact H).
  rewrite str_eqb_cons. reflexivity.
Qed.

(** A pattern without ['*'] matches the texts of its own length that agree
    with it at every position where it has no ['?'], whatever the text
    holds; a pattern without any wildcard matches itself only. *)
Theorem SegmentMatch_without_star (pat text : str) :
  no_star pat ->
  SegmentMatch pat text = Ok (literal_match pat text) /\
  (SegmentMatch pat text = Ok true -> length text = length pat) /\
  (~ In quest_c pat -> SegmentMatch pat text = Ok (str_eqb pat text)).
Proof.
  intros Hns.
  assert (H : SegmentMatch pat text = Ok (literal_match pat text)).
  { destruct (SegmentMatch_total pat text) as [b Hb]. rewrite Hb. f_equal.
    apply (SegmentMatch_loop_literal pat text (segment_fuel pat text) Hns
             0 0 None b); [lia | exact Hb]. }
  split; [exact H|]. split.
  - rewrite H. intros [= E]. apply literal_match_length. exact E.
  - intros Hq. rewrite H, literal_match_eq by exact Hq. reflexivity.
Qed.

Lemma SegmentMatch_without_star_witness :
  no_star (lit "a?c") /\
  SegmentMatch (lit "a?c") (lit "a*c")
  = Ok (literal_match (lit "a?c") (lit "a*c")).
Proof.
  assert (H : no_star (lit "a?c")).
  { unfold no_star. simpl. intros H.
    repeat (destruct H as [H | H]; [discriminate H|]). exact H. }
  split; [exact H|].
  apply (proj1 (SegmentMatch_without_star (lit "a?c") (lit "a*c") H)).
Defined.

(** ** [TokensMatch] and [WildMatchPath] *)

Lemma seg_ok_Ok (p s : str) : SegmentMatch p s = Ok (seg_ok p s).
Proof.
  unfold seg_ok. destruct (SegmentMatch_total p s) as [b ->]. reflexivity.
Qed.

Lemma tokens_spec_star (ptokens stokens : list str) :
  tokens_spec (lit "**" :: ptokens) stokens =
  tokens_spec ptokens stokens ||
  match stokens with
  | [] => false
  | _ :: stokens' => tokens_spec (lit "**" :: ptokens) stokens'
  end.
Proof.
  destruct stokens; reflexivity.
Qed.

Lemma tokens_spec_token (p : str) (ptokens stokens : list str) :
  str_eqb p (lit "**") = false ->
  tokens_spec (p :: ptokens) stokens =
  match stokens with
  | [] => false
  | s :: stokens' => seg_ok p s && tokens_spec ptokens stokens'
  end.
Proof.
  intros H. cbn [tokens_spec]. rewrite H. reflexivity.
Qed.

Lemma for_k_tokens_spec (ptokens stokens : list str) (f : nat -> res bool)
    (n : nat) :
  forall si,
    si <= length stokens ->
    si + n = S (length stokens) ->
    (forall k, si <= k <= length stokens ->
               f k = Ok (tokens_spec ptokens (skipn k stokens))) ->
    for_k f si n = Ok (tokens_spec (lit "**" :: ptokens) (skipn si stokens)).
Proof.
  induction n as [|n IH]; intros si Hsi Hn Hf; [lia|].
  cbn [for_k]. rewrite Hf by lia. cbn [bind].
  rewrite tokens_spec_star.
  destruct (tokens_spec ptokens (skipn si stokens)); [reflexivity|].
  cbn [orb].
  destruct (Nat.eq_dec si (length stokens)) as [E|NE].
  - replace n with 0 by lia. rewrite skipn_all2 by lia. reflexivity.
  - destruct (nth_error stokens si) as [s|] eqn:Es.
    2:{ apply nth_error_None in Es. lia. }
    rewrite (nth_error_skipn_cons _ _ Es).
    apply IH; [lia | lia | intros k Hk; apply Hf; lia].
Qed.

Lemma TokensMatch_tokens_spec (ptokens stokens : list str) (n : nat) :
  forall pi si,
    length ptokens - pi = n ->
    pi <= length ptokens -> si <= length stokens ->
    TokensMatch ptokens stokens pi si =
    Ok (tokens_spec (skipn pi ptokens) (skipn si stokens)).
Proof.
  induction n as [|n IH]; intros pi si Hn Hpi Hsi.
  - replace pi with (length ptokens) by lia.
    rewrite TokensMatch_end, skipn_all. cbn [tokens_spec].
    destruct (Nat.eqb_spec si (length stokens)) as [->|NE].
    + rewrite skipn_all. reflexivity.
    + destruct (skipn si stokens) eqn:E; [|reflexivity].
      apply (f_equal (@length _)) in E. rewrite length_skipn in E.
      simpl in E. lia.
  - destruct (nth_error ptokens pi) as [p|] eqn:Ep.
    2:{ apply nth_error_None in Ep. lia. }
    rewrite (@TokensMatch_step ptokens stokens pi si p Ep),
      (nth_error_skipn_cons _ _ Ep).
    destruct (str_eqb p (lit "**")) eqn:Estar.
    + apply str_eqb_eq in Estar. subst p.
      apply for_k_tokens_spec; [exact Hsi | lia|].
      intros k Hk. apply IH; lia.
    + rewrite tokens_spec_token by exact Estar.
      destruct (Nat.eqb_spec si (length stokens)) as [->|NE].
      * rewrite skipn_all. reflexivity.
      * destruct (nth_error stokens si) as [s|] eqn:Es.
        2:{ apply nth_error_None in Es. lia. }
        rewrite (nth_error_skipn_cons _ _ Es), seg_ok_Ok. cbn [bind].
        destruct (seg_ok p s); cbn [negb andb]; [|reflexivity].
        apply IH; lia.
Qed.

(** The index-and-loop matcher computes the recursion on the token lists:
    from in-range indices [TokensMatch] answers what [tokens_spec] says of
    the tokens that are left, and [WildMatchPath] what it says of the two
    split strings. *)
Theorem TokensMatch_refines (ptokens stokens : list str) (pi si : nat) :
  pi <= length ptokens -> si <= length stokens ->
  TokensMatch ptokens stokens pi si =
  Ok (tokens_spec (skipn pi ptokens) (skipn si stokens)).
Proof.
  intros Hpi Hsi.
  apply (TokensMatch_tokens_spec ptokens stokens (length ptokens - pi));
    [reflexivity | exact Hpi | exact Hsi].
Qed.

Lemma TokensMatch_refines_witness :
  1 <= length [lit "a"; lit "**"; lit "b"] /\
  2 <= length [lit "a"; lit "x"; lit "y"; lit "b"] /\
  TokensMatch [lit "a"; lit "**"; lit "b"] [lit "a"; lit "x"; lit "y"; lit "b"]
    1 2
  = Ok (tokens_spec (skipn 1 [lit "a"; lit "**"; lit "b"])
          (skipn 2 [lit "a"; lit "x"; lit "y"; lit "b"])).
Proof.
  split; [simpl; lia|]. split; [simpl; lia|].
  apply (TokensMatch_refines [lit "a"; lit "**"; lit "b"]
           [lit "a"; lit "x"; lit "y"; lit "b"] 1 2); simpl; lia.
Defined.

Lemma WildMatchPath_tokens_spec (pat path : str) :
  WildMatchPath pat path =
  Ok (tokens_spec (Split pat slash) (Split path slash)).
Proof.
  unfold WildMatchPath.
  rewrite TokensMatch_refines by lia. reflexivity.
Qed.

Lemma tokens_spec_star_any (ptokens : list str) (extra : list str) :
  forall stokens,
    tokens_spec ptokens stokens = true ->
    tokens_spec (lit "**" :: ptokens) (extra ++ stokens) = true.
Proof.
  induction extra as [|s extra IH]; intros stokens H; cbn [app];
    rewrite tokens_spec_star.
  - rewrite H. reflexivity.
  - rewrite (IH stokens H). apply orb_true_r.
Qed.

Lemma tokens_spec_nil_star (extra : list str) :
  tokens_spec [lit "**"] extra = true.
Proof.
  rewrite <- (app_nil_r extra). apply tokens_spec_star_any. reflexivity.
Qed.

Lemma tokens_spec_any_star (ptokens : list str) :
  forall stokens extra,
    tokens_spec ptokens stokens = true ->
    tokens_spec (ptokens ++ [lit "**"]) (stokens ++ extra) = true.
Proof.
  induction ptokens as [|p ptokens IH]; intros stokens extra H.
  - destruct stokens; [|discriminate]. apply tokens_spec_nil_star.
  - simpl app. destruct (str_eqb p (lit "**")) eqn:Estar.
    + apply str_eqb_eq in Estar. subst p.
      induction stokens as [|s stokens IHs].
      * rewrite tokens_spec_star in H. rewrite orb_false_r in H.
        rewrite <- (app_nil_l ([] ++ extra)).
        apply tokens_spec_star_any. apply IH. exact H.
      * rewrite tokens_spec_star in H. apply orb_true_iff in H.
        rewrite tokens_spec_star. apply orb_true_iff.
        destruct H as [H | H].
        -- left. apply IH. exact H.
        -- right. apply IHs. exact H.
    + rewrite tokens_spec_token in H by exact Estar.
      destruct stokens as [|s stokens]; [discriminate|].
      apply andb_true_iff in H. destruct H as [Hs H].
      change ((s :: stokens) ++ extra) with (s :: (stokens ++ extra)).
      rewrite tokens_spec_token by exact Estar.
      rewrite Hs. apply IH. exact H.
Qed.

Lemma Split_app (a b : str) (delim : ascii) :
  Split (a ++ delim :: b) delim = Split a delim ++ Split b delim.
Proof.
  apply Split_from_app.
Qed.

(** "**" at either end of a pattern: a pattern that matches a path still
    matches it, and matches everything below it, once "/**" is put at its
    end; with "**/" at its front it matches the path at any depth. *)
Theorem WildMatchPath_double_star_ends (pat path : str) :
  WildMatchPath pat path = Ok true ->
  WildMatchPath (pat ++ lit "/**") path = Ok true /\
  (forall below, WildMatchPath (pat ++ lit "/**") (path ++ slash :: below)
                 = Ok true) /\
  WildMatchPath (lit "**/" ++ pat) path = Ok true /\
  (forall above, WildMatchPath (lit "**/" ++ pat) (above ++ slash :: path)
                 = Ok true).
Proof.
  intros H. rewrite WildMatchPath_tokens_spec in H. injection H as H.
  assert (Hp : Split (pat ++ lit "/**") slash = Split pat slash ++ [lit "**"]).
  { change (lit "/**") with (slash :: lit "**"). apply Split_app. }
  assert (Hq : Split (lit "**/" ++ pat) slash = lit "**" :: Split pat slash).
  { change (lit "**/" ++ pat) with (lit "**" ++ slash :: pat).
    apply Split_app. }
  split; [|split; [|split]].
  - rewrite WildMatchPath_tokens_spec, Hp.
    rewrite <- (app_nil_r (Split path slash)).
    rewrite tokens_spec_any_star by exact H. reflexivity.
  - intros below. rewrite WildMatchPath_tokens_spec, Hp, Split_app.
    rewrite tokens_spec_any_star by exact H. reflexivity.
  - rewrite WildMatchPath_tokens_spec, Hq.
    f_equal. apply (tokens_spec_star_any _ [] _ H).
  - intros above. rewrite WildMatchPath_tokens_spec, Hq, Split_app.
    rewrite tokens_spec_star_any by exact H. reflexivity.
Qed.

Lemma WildMatchPath_double_star_ends_witness :
  WildMatchPath (lit "build") (lit "build") = Ok true /\
  WildMatchPath (lit "build" ++ lit "/**") (lit "build" ++ slash :: lit "x/y")
  = Ok true.
Proof.
  split; [reflexivity|].
  apply (proj1 (proj2 (WildMatchPath_double_star_ends (lit "build")
                         (lit "build") eq_refl))).
Defined.

(** ** [GitWildMatch] *)

Lemma pop_back_snoc (s : str) (c : ascii) : pop_back (s ++ [c]) = Ok s.
Proof.
  unfold pop_back. rewrite removelast_last.
  destruct s; reflexivity.
Qed.

Lemma EndsWith_snoc_slash (s : str) : EndsWith (s ++ [slash]) (lit "/") = true.
Proof.
  apply (@EndsWith_last_slash (s ++ [slash]) (length s)).
  - rewrite nth_error_app2, Nat.sub_diag by lia. reflexivity.
  - rewrite length_app. simpl. lia.
Qed.

(** One slash at the end of the path makes no difference to a rule that
    is not for directories only. *)
Theorem GitWildMatch_trailing_slash (p : Pattern) (rel_path : str)
    (is_dir : bool) :
  dir_only p = false ->
  EndsWith rel_path (lit "/") = false ->
  GitWildMatch p (rel_path ++ [slash]) is_dir = GitWildMatch p rel_path is_dir.
Proof.
  intros Hd He. unfold GitWildMatch, compare_path.
  rewrite EndsWith_snoc_slash, He, Hd, pop_back_snoc. reflexivity.
Qed.

Lemma GitWildMatch_trailing_slash_witness :
  dir_only rule_build = false /\
  EndsWith (lit "src/build") (lit "/") = false /\
  GitWildMatch rule_build (lit "src/build" ++ [slash]) true
  = GitWildMatch rule_build (lit "src/build") true.
Proof.
  split; [reflexivity|]. split; [reflexivity|].
  apply (GitWildMatch_trailing_slash rule_build (lit "src/build") true);
    reflexivity.
Defined.

Lemma last_slash_split (s : str) :
  In slash s -> exists pre l, s = pre ++ slash :: l /\ ~ In slash l.
Proof.
  induction s as [|c s IH]; intros Hin; [destruct Hin|].
  destruct (in_dec ascii_dec slash s) as [Hs|Hs].
  - destruct (IH Hs) as (pre & l & -> & Hl).
    exists (c :: pre), l. split; [reflexivity | exact Hl].
  - destruct Hin as [-> | Hin]; [|contradiction].
    exists [], s. split; [reflexivity | exact Hs].
Qed.

Lemma Split_no_slash (s : str) : ~ In slash s -> Split s slash = [s].
Proof.
  intros H. apply (Split_from_token slash s H []).
Qed.

Lemma Split_with_slash (s : str) :
  In slash s -> exists t1 t2 ts, Split s slash = t1 :: t2 :: ts.
Proof.
  intros H. destruct (last_slash_split s H) as (pre & l & -> & Hl).
  rewrite Split_app, (Split_no_slash l Hl).
  destruct (Split pre slash) as [|t ts] eqn:E.
  - exfalso. exact (Split_from_nonempty _ _ _ E).
  - destruct ts as [|t' ts]; simpl; eauto.
Qed.

(** A pattern of one token that is not "**" matches the paths of one
    segment that [SegmentMatch] accepts. *)
Lemma WildMatchPath_one_token (pat s : str) :
  ~ In slash pat -> pat <> lit "**" ->
  WildMatchPath pat s =
  if in_dec ascii_dec slash s then Ok false else SegmentMatch pat s.
Proof.
  intros Hp Hne.
  assert (Hstar : str_eqb pat (lit "**") = false).
  { destruct (str_eqb pat (lit "**")) eqn:E; [|reflexivity].
    apply str_eqb_eq in E. contradiction. }
  rewrite WildMatchPath_tokens_spec, (Split_no_slash pat Hp).
  rewrite tokens_spec_token by exact Hstar.
  destruct (in_dec ascii_dec slash s) as [Hs|Hs].
  - destruct (Split_with_slash s Hs) as (t1 & t2 & ts & ->).
    cbn [tokens_spec]. rewrite andb_false_r. reflexivity.
  - rewrite (Split_no_slash s Hs). cbn [tokens_spec].
    rewrite andb_true_r. symmetry. apply seg_ok_Ok.
Qed.

(** An unanchored rule without '/' is matched against the last segment of
    the path, at whatever depth it lies; a rule for directories only
    matches no entry that is not a directory. *)
Theorem GitWildMatch_basename (p : Pattern) (rel_path : str) (is_dir : bool)
    (path : str) :
  anchored p = false ->
  ~ In slash (pattern p) -> pattern p <> lit "**" ->
  compare_path p rel_path = Ok path ->
  EndsWith path (lit "/") = false ->
  GitWildMatch p rel_path is_dir =
  if dir_only p && negb is_dir then Ok false
  else SegmentMatch (pattern p) (last (Split path slash) []).
Proof.
  intros Ha Hp Hne Hc He.
  destruct (dir_only p && negb is_dir) eqn:Hd.
  { unfold GitWildMatch. rewrite Hd. reflexivity. }
  unfold GitWildMatch. rewrite Hd, Hc, Ha. cbn [bind].
  destruct (suffix_loop_spec (pattern p) path (length path) 0 eq_refl)
    as [[b Hb] Hs].
  rewrite (WildMatchPath_one_token (pattern p) path Hp Hne).
  destruct (in_dec ascii_dec slash path) as [Hin|Hin].
  - (* the path has several segments *)
    cbn [bind].
    destruct (last_slash_split path Hin) as (pre & l & E & Hl).
    assert (Hlast : last (Split path slash) [] = l).
    { rewrite E, Split_app, (Split_no_slash l Hl). apply last_last. }
    rewrite Hlast, seg_ok_Ok.
    assert (Hnth : nth_error path (length pre) = Some slash).
    { rewrite E, nth_error_app2, Nat.sub_diag by lia. reflexivity. }
    assert (Hskip : skipn (S (length pre)) path = l).
    { rewrite E. clear. induction pre as [|c pre IH]; [reflexivity|].
      exact IH. }
    assert (Hlen : S (length pre) < length path).
    { destruct (Nat.lt_ge_cases (S (length pre)) (length path)) as [|Hge];
        [assumption|].
      assert (Hlt : length pre < length path)
        by (apply nth_error_Some; congruence).
      rewrite (@EndsWith_last_slash path (length pre) Hnth) in He by lia.
      discriminate. }
    destruct (seg_ok (pattern p) l) eqn:Eok.
    + apply Hs. exists (length pre).
      split; [lia|]. split; [exact Hnth|]. split; [exact Hlen|].
      rewrite Hskip, (WildMatchPath_one_token (pattern p) l Hp Hne).
      destruct (in_dec ascii_dec slash l); [contradiction|].
      rewrite seg_ok_Ok, Eok. reflexivity.
    + rewrite Hb. f_equal. destruct b; [|reflexivity].
      exfalso. apply Hs in Hb. destruct Hb as (j & _ & Hj & Hjl & Hw).
      rewrite (WildMatchPath_one_token (pattern p) _ Hp Hne) in Hw.
      destruct (in_dec ascii_dec slash (skipn (S j) path)) as [Hsl|Hsl];
        [discriminate|].
      destruct (Nat.lt_trichotomy j (length pre)) as [Hlt | [-> | Hgt]].
      * apply Hsl. rewrite E, skipn_app.
        apply in_or_app. right.
        replace (S j - length pre) with 0 by lia. left. reflexivity.
      * rewrite Hskip, seg_ok_Ok, Eok in Hw. discriminate.
      * apply Hl. rewrite E in Hj.
        rewrite nth_error_app2 in Hj by lia.
        destruct (j - length pre) as [|k] eqn:Ek; [lia|].
        simpl in Hj. eapply nth_error_In. exact Hj.
  - (* the path is one segment *)
    rewrite (Split_no_slash path Hin). cbn [last].
    rewrite seg_ok_Ok. cbn [bind].
    destruct (seg_ok (pattern p) path); [reflexivity|].
    rewrite Hb. f_equal. destruct b; [|reflexivity].
    exfalso. apply Hs in Hb. destruct Hb as (j & _ & Hj & _).
    apply Hin. eapply nth_error_In. exact Hj.
Qed.

Lemma GitWildMatch_basename_witness :
  anchored rule_logs = false /\
  ~ In slash (pattern rule_logs) /\ pattern rule_logs <> lit "**" /\
  compare_path rule_logs (lit "a/b/logs") = Ok (lit "a/b/logs") /\
  EndsWith (lit "a/b/logs") (lit "/") = false /\
  GitWildMatch rule_logs (lit "a/b/logs") false =
    (if dir_only rule_logs && negb false then Ok false
     else SegmentMatch (pattern rule_logs)
            (last (Split (lit "a/b/logs") slash) [])) /\
  GitWildMatch rule_logs (lit "a/b/logs") true =
    (if dir_only rule_logs && negb true then Ok false
     else SegmentMatch (pattern rule_logs)
            (last (Split (lit "a/b/logs") slash) [])).
Proof.
  assert (Hp : ~ In slash (pattern rule_logs)).
  { simpl. intros H.
    repeat (destruct H as [H | H]; [discriminate H|]). exact H. }
  assert (Hne : pattern rule_logs <> lit "**") by discriminate.
  split; [reflexivity|]. split; [exact Hp|]. split; [exact Hne|].
  split; [reflexivity|]. split; [reflexivity|].
  split;
    [apply (GitWildMatch_basename rule_logs (lit "a/b/logs") false
              (lit "a/b/logs"))
    |apply (GitWildMatch_basename rule_logs (lit "a/b/logs") true
              (lit "a/b/logs"))];
    try reflexivity; assumption.
Defined.

(** ** [IsIgnored] *)

Lemma find_app_cases (A : Type) (f : A -> bool) (l1 l2 : list A) :
  find f (l1 ++ l2) =
  match find f l1 with
  | Some x => Some x
  | None => find f l2
  end.
Proof.
  induction l1 as [|a l1 IH]; simpl; [reflexivity|].
  destruct (f a); [reflexivity | exact IH].
Qed.

Lemma find_existsb (A : Type) (f : A -> bool) (l : list A) :
  existsb f l = match find f l with Some _ => true | None => false end.
Proof.
  induction l as [|a l IH]; simpl; [reflexivity|].
  destruct (f a); [reflexivity | exact IH].
Qed.

Lemma existsb_rev_eq (A : Type) (f : A -> bool) (l : list A) :
  existsb f (rev l) = existsb f l.
Proof.
  induction l as [|a l IH]; simpl; [reflexivity|].
  rewrite existsb_app, IH. simpl. rewrite orb_false_r. apply orb_comm.
Qed.

(** Rules that come later take precedence: when one of them matches, the
    rules before them do not count; when none does, the result is that of
    the rules before them. *)
Theorem IsIgnored_app (earlier later : list Pattern) (rel_path : str)
    (is_dir : bool) :
  IsIgnored (earlier ++ later) rel_path is_dir =
  if existsb (fun p => ruleMatches p rel_path is_dir) later
  then IsIgnored later rel_path is_dir
  else IsIgnored earlier rel_path is_dir.
Proof.
  rewrite !IsIgnored_last_match. unfold last_match_wins.
  rewrite rev_app_distr, find_app_cases.
  rewrite <- (existsb_rev_eq _ _ later), find_existsb.
  destruct (find _ (rev later)); reflexivity.
Qed.

Lemma find_some_in (A : Type) (f : A -> bool) (l : list A) (x : A) :
  find f l = Some x -> In x l /\ f x = true.
Proof.
  induction l as [|a l IH]; simpl; [discriminate|].
  destruct (f a) eqn:E.
  - intros [= <-]. split; [left; reflexivity | exact E].
  - intros H. destruct (IH H). split; [right|]; assumption.
Qed.

(** Without negated rules a path is ignored exactly when some rule matches
    it; a rule set of negated rules only ignores nothing. *)
Theorem IsIgnored_one_polarity (patterns : list Pattern) (rel_path : str)
    (is_dir : bool) :
  ((forall p, In p patterns -> negated p = false) ->
   IsIgnored patterns rel_path is_dir =
   Ok (existsb (fun p => ruleMatches p rel_path is_dir) patterns)) /\
  ((forall p, In p patterns -> negated p = true) ->
   IsIgnored patterns rel_path is_dir = Ok false).
Proof.
  rewrite IsIgnored_last_match. unfold last_match_wins.
  rewrite <- (existsb_rev_eq _ _ patterns), find_existsb.
  split; intros H;
    (destruct (find _ (rev patterns)) as [p|] eqn:E; [|reflexivity]);
    apply find_some_in in E; destruct E as [Hin _];
    apply in_rev in Hin; rewrite (H p Hin); reflexivity.
Qed.

Lemma IsIgnored_one_polarity_witness :
  (forall p, In p [rule_not_a] -> negated p = true) /\
  IsIgnored [rule_not_a] (lit "a") false = Ok false.
Proof.
  assert (H : forall p, In p [rule_not_a] -> negated p = true)
    by (intros p [<- | []]; reflexivity).
  split; [exact H|].
  apply (proj2 (IsIgnored_one_polarity [rule_not_a] (lit "a") false) H).
Defined.

(** ** [LoadGitignoreSpec] *)

Lemma compile_line_unfold (line0 : str) :
  compile_line line0 =
  (line <- Trim line0 ;;
   match line with
   | [] => Ok None
   | _ :: _ =>
       if first_is hash_c line then Ok None
       else if first_is bang_c line then
         l1 <- erase_begin line ;;
         l2 <- Trim l1 ;;
         match l2 with
         | [] => Ok None
         | _ :: _ => store_rule true l2
         end
       else store_rule false line
   end).
Proof.
  unfold compile_line.
  destruct (Trim line0) as [line| |]; cbn [bind]; try reflexivity.
  destruct line as [|c line]; [reflexivity|].
  destruct (first_is hash_c (c :: line)); [reflexivity|].
  destruct (first_is bang_c (c :: line)).
  - cbn [erase_begin bind].
    destruct (Trim line) as [l2| |]; cbn [bind]; try reflexivity.
    destruct l2; reflexivity.
  - reflexivity.
Qed.

Lemma compile_lines_acc (lines : list str) :
  forall acc,
    compile_lines lines acc =
    (rs <- compile_lines lines [] ;; Ok (acc ++ rs)).
Proof.
  induction lines as [|l lines IH]; intros acc; simpl.
  - rewrite app_nil_r. reflexivity.
  - destruct (compile_line l) as [[p|]| |]; cbn [bind]; try reflexivity.
    + rewrite (IH (acc ++ [p])), (IH [p]).
      destruct (compile_lines lines []); cbn [bind]; try reflexivity.
      rewrite <- app_assoc. reflexivity.
    + apply IH.
Qed.

Lemma compile_lines_app (l1 l2 : list str) :
  forall acc,
    compile_lines (l1 ++ l2) acc =
    (r1 <- compile_lines l1 acc ;; compile_lines l2 r1).
Proof.
  induction l1 as [|l l1 IH]; intros acc; simpl; [reflexivity|].
  destruct (compile_line l) as [[p|]| |]; cbn [bind]; try reflexivity;
    apply IH.
Qed.

Lemma compile_line_empty : compile_line [] = Ok None.
Proof. reflexivity. Qed.

(** The lines read from [t1], a line feed and [t2]: those of [t1], up to an
    empty line, then those of [t2]. *)
Lemma getlines_from_LF (t1 t2 : str) :
  forall cur,
    exists X,
      getlines_from cur (t1 ++ LF :: t2) = X ++ getlines t2 /\
      forall acc,
        compile_lines X acc = compile_lines (getlines_from cur t1) acc.
Proof.
  induction t1 as [|c t1 IH]; intros cur.
  - exists [cur]. split.
    + reflexivity.
    + intros acc. destruct cur; reflexivity.
  - simpl. destruct (c =? LF)%char.
    + destruct (IH []) as (X & HX & Hc).
      exists (cur :: X). split; [rewrite HX; reflexivity|].
      intros acc. simpl.
      destruct (compile_line cur) as [[p|]| |]; cbn [bind]; try reflexivity;
        apply Hc.
    + apply IH.
Qed.

(** Two rules files put one after the other, a line feed between them,
    compile to the rules of the first followed by the rules of the second:
    every line makes its rule on its own, and the order of the lines is the
    order of the rules. *)
Theorem LoadGitignoreSpec_concat (t1 t2 : str) :
  exists r1 r2,
    LoadGitignoreSpec (Some t1) = Ok r1 /\
    LoadGitignoreSpec (Some t2) = Ok r2 /\
    LoadGitignoreSpec (Some (t1 ++ LF :: t2)) = Ok (r1 ++ r2).
Proof.
  destruct (compile_lines_total (getlines t1) []) as [r1 H1].
  destruct (compile_lines_total (getlines t2) []) as [r2 H2].
  exists r1, r2. split; [exact H1|]. split; [exact H2|].
  simpl. unfold getlines at 1.
  destruct (getlines_from_LF t1 t2 []) as (X & -> & Hc).
  rewrite compile_lines_app, Hc. fold (getlines t1). rewrite H1.
  cbn [bind]. rewrite compile_lines_acc, H2. reflexivity.
Qed.

Lemma compile_line_outer_space (a line b : str) :
  all_ws a -> all_ws b ->
  compile_line (a ++ line ++ b) = compile_line line.
Proof.
  intros Ha Hb. unfold compile_line.
  rewrite !Trim_strip, strip_outer_space by assumption. reflexivity.
Qed.

Lemma compile_lines_CR (lines : list str) :
  forall acc,
    compile_lines (map (fun l => l ++ [CR]) lines) acc =
    compile_lines lines acc.
Proof.
  induction lines as [|l lines IH]; intros acc; [reflexivity|].
  simpl.
  replace (compile_line (l ++ [CR])) with (compile_line l).
  - destruct (compile_line l) as [[p|]| |]; cbn [bind]; try reflexivity;
      apply IH.
  - symmetry. apply (compile_line_outer_space [] l [CR]);
      repeat constructor.
Qed.

(** White space around a line, a carriage return at its end included, does
    not change the rule it makes: a rules file with CR LF line ends
    compiles to the rule set of the same file with LF line ends. *)
Theorem compile_ignores_outer_space :
  (forall a line b,
      all_ws a -> all_ws b ->
      compile_line (a ++ line ++ b) = compile_line line) /\
  (forall lines,
      Forall no_LF lines ->
      LoadGitignoreSpec (Some (concat (map (fun l => l ++ [CR; LF]) lines))) =
      LoadGitignoreSpec (Some (unlines lines))).
Proof.
  split; [exact compile_line_outer_space|].
  intros lines Hl. simpl.
  assert (E : concat (map (fun l => l ++ [CR; LF]) lines) =
              unlines (map (fun l => l ++ [CR]) lines)).
  { unfold unlines. rewrite map_map. f_equal.
    apply map_ext. intros l. rewrite <- app_assoc. reflexivity. }
  rewrite E.
  rewrite <- (app_nil_r (unlines (map _ lines))).
  rewrite <- (app_nil_r (unlines lines)).
  rewrite !getlines_unlines_app.
  - simpl. rewrite !app_nil_r. apply compile_lines_CR.
  - exact Hl.
  - apply Forall_map. apply Forall_impl with (2 := Hl).
    intros l Hn Hin. apply in_app_or in Hin.
    destruct Hin as [Hin | [Hin | []]]; [exact (Hn Hin) | discriminate Hin].
Qed.

Lemma compile_ignores_outer_space_witness :
  all_ws (lit " ") /\ all_ws [CR] /\
  compile_line (lit " " ++ lit "!build/" ++ [CR]) = compile_line (lit "!build/").
Proof.
  assert (Ha : all_ws (lit " ")) by (repeat constructor).
  assert (Hb : all_ws [CR]) by (repeat constructor).
  split; [exact Ha|]. split; [exact Hb|].
  apply (proj1 compile_ignores_outer_space (lit " ") (lit "!build/") [CR]
           Ha Hb).
Defined.

Lemma drop_ws_end_cons (c : ascii) (l : str) :
  is_ws c = false -> drop_ws_end (c :: l) = c :: drop_ws_end l.
Proof.
  intros Hc. unfold drop_ws_end. simpl rev. rewrite drop_ws_app.
  destruct (drop_ws (rev l)) as [|x r] eqn:E.
  - simpl. rewrite Hc. reflexivity.
  - rewrite rev_app_distr. reflexivity.
Qed.

Lemma strip_drop_ws_end (l : str) :
  drop_ws_end (drop_ws (drop_ws_end l)) = drop_ws_end (drop_ws l).
Proof.
  destruct (drop_ws_end_split l) as (b & Hb & Hws).
  rewrite Hb at 2.
  symmetry. apply (strip_outer_space [] (drop_ws_end l) b);
    [constructor | exact Hws].
Qed.

Lemma store_rule_negate (line : str) :
  store_rule true line =
  (r <- store_rule false line ;; Ok (option_map negate r)).
Proof.
  unfold store_rule.
  destruct (EndsWith line (lit "/")).
  - destruct (pop_back line) as [l| |]; cbn [bind]; try reflexivity.
    destruct (StartsWith l (lit "/")); reflexivity.
  - cbn [bind]. destruct (StartsWith line (lit "/")); reflexivity.
Qed.

(** A ['!'] in front of a line changes nothing of the rule but its
    negation flag, provided the line is neither a comment nor negated
    already. *)
Theorem compile_line_bang (line t : str) :
  Trim line = Ok t ->
  first_is hash_c t = false -> first_is bang_c t = false ->
  compile_line (bang_c :: line) =
  (r <- compile_line line ;; Ok (option_map negate r)).
Proof.
  intros Ht Hh Hb.
  rewrite Trim_strip in Ht. injection Ht as Ht.
  rewrite !compile_line_unfold, !Trim_strip. cbn [bind].
  change (drop_ws (bang_c :: line)) with (bang_c :: line).
  rewrite drop_ws_end_cons by reflexivity.
  change (first_is hash_c (bang_c :: drop_ws_end line)) with false.
  change (first_is bang_c (bang_c :: drop_ws_end line)) with true.
  cbv iota. cbn [erase_begin bind].
  rewrite Trim_strip, strip_drop_ws_end, Ht. cbn [bind].
  destruct t as [|c t]; [reflexivity|].
  rewrite Hh, Hb. apply store_rule_negate.
Qed.

Lemma compile_line_bang_witness :
  Trim (lit " /build/ ") = Ok (lit "/build/") /\
  first_is hash_c (lit "/build/") = false /\
  first_is bang_c (lit "/build/") = false /\
  compile_line (bang_c :: lit " /build/ ") =
  (r <- compile_line (lit " /build/ ") ;; Ok (option_map negate r)).
Proof.
  split; [reflexivity|]. split; [reflexivity|]. split; [reflexivity|].
  apply (compile_line_bang (lit " /build/ ") (lit "/build/")); reflexivity.
Defined.

Lemma NormalizeSlashes_no_backslash (s : str) :
  ~ In backslash (NormalizeSlashes s).
Proof.
  unfold NormalizeSlashes. intros H. apply in_map_iff in H.
  destruct H as (c & Hc & _).
  destruct (c =? backslash)%char eqn:E; [discriminate Hc|].
  apply Ascii.eqb_neq in E. contradiction.
Qed.

Lemma store_rule_pattern (neg : bool) (line : str) (p : Pattern) :
  store_rule neg line = Ok (Some p) ->
  negated p = neg /\ ~ In backslash (pattern p) /\
  exists l, pattern p = NormalizeSlashes l /\
            (anchored p = true -> first_is slash l = false).
Proof.
  unfold store_rule. intros H.
  apply bind_Ok_inv in H. destruct H as ([d l] & _ & H).
  assert (Hstrip : forall x, first_is slash (strip_slashes x) = false).
  { intros x. induction x as [|c x IH]; [reflexivity|]. simpl.
    destruct (c =? slash)%char eqn:E; [exact IH|]. simpl. exact E. }
  destruct (StartsWith l (lit "/")); injection H as <-; cbn;
    (split; [reflexivity|]);
    (split; [apply NormalizeSlashes_no_backslash|]);
    eexists; (split; [reflexivity|]); intros Ha;
    [apply Hstrip | discriminate Ha].
Qed.

(** What every stored rule keeps: its pattern holds no backslash, and it is
    negated exactly when its line, trimmed, starts with ['!']. *)
Theorem stored_rule_invariants (file : option str) (rules : list Pattern)
    (p : Pattern) :
  LoadGitignoreSpec file = Ok rules -> In p rules ->
  ~ In backslash (pattern p) /\
  exists text line t,
    file = Some text /\ In line (getlines text) /\
    compile_line line = Ok (Some p) /\ Trim line = Ok t /\
    negated p = first_is bang_c t.
Proof.
  intros H Hin. destruct file as [text|]; simpl in H.
  2:{ injection H as <-. destruct Hin. }
  eapply compile_lines_In in Hin; [|exact H].
  destruct Hin as [[] | (line & Hline & Hl)].
  destruct (Trim_total line) as [t Ht].
  pose proof Hl as Hl'.
  rewrite compile_line_unfold, Ht in Hl'. cbn [bind] in Hl'.
  destruct t as [|c t]; [discriminate|].
  destruct (first_is hash_c (c :: t)); [discriminate|].
  destruct (first_is bang_c (c :: t)) eqn:Eb.
  - cbn [erase_begin bind] in Hl'.
    destruct (Trim t) as [l2| |]; cbn [bind] in Hl'; try discriminate.
    destruct l2 as [|c2 l2]; [discriminate|].
    apply store_rule_pattern in Hl'. destruct Hl' as (Hn & Hb & _).
    split; [exact Hb|]. exists text, line, (c :: t).
    rewrite Eb. auto.
  - apply store_rule_pattern in Hl'. destruct Hl' as (Hn & Hb & _).
    split; [exact Hb|]. exists text, line, (c :: t).
    rewrite Eb. auto.
Qed.

Lemma stored_rule_invariants_witness :
  LoadGitignoreSpec (Some (lit "!a\b")) =
    Ok [mkPattern (lit "a/b") true false false] /\
  In (mkPattern (lit "a/b") true false false)
     [mkPattern (lit "a/b") true false false] /\
  ~ In backslash (pattern (mkPattern (lit "a/b") true false false)).
Proof.
  split; [reflexivity|]. split; [left; reflexivity|].
  apply (stored_rule_invariants (Some (lit "!a\b"))
           [mkPattern (lit "a/b") true false false]
           (mkPattern (lit "a/b") true false false));
    [reflexivity | left; reflexivity].
Defined.

(** ** [ParseArguments] *)

Lemma find_agree (A : Type) (f g : A -> bool) (l : list A) :
  (forall x, In x l -> f x = g x) -> find f l = find g l.
Proof.
  induction l as [|a l IH]; intros H; simpl; [reflexivity|].
  rewrite <- (H a) by (left; reflexivity).
  destruct (f a); [reflexivity|].
  apply IH. intros x Hx. apply H. right. exact Hx.
Qed.

Lemma ParseArguments_from_options (opts : list (str * str)) :
  Forall valid_option opts ->
  forall rest args,
    ParseArguments_from (flatten_options opts ++ rest) args =
    ParseArguments_from rest
      (Args.mk
         (match last_value is_path_flag opts with
          | Some v => v
          | None => Args.path args
          end)
         (match last_value (fun a => negb (is_path_flag a)) opts with
          | Some v => Some v
          | None => Args.out args
          end)).
Proof.
  induction 1 as [|[f v] opts Hv _ IH]; intros rest args.
  - destruct args; reflexivity.
  - unfold valid_option in Hv. simpl fst in Hv.
    change (flatten_options ((f, v) :: opts) ++ rest)
      with (f :: v :: (flatten_options opts ++ rest)).
    unfold last_value in *. simpl rev. rewrite !find_app_cases.
    cbn [ParseArguments_from].
    destruct (is_path_flag f) eqn:Ep.
    + rewrite IH. cbn [Args.path Args.out].
      destruct (find (fun fv => is_path_flag (fst fv)) (rev opts));
        destruct (find (fun fv => negb (is_path_flag (fst fv))) (rev opts));
        cbn; rewrite ?Ep; reflexivity.
    + simpl in Hv. rewrite Hv. rewrite IH. cbn [Args.path Args.out].
      destruct (find (fun fv => is_path_flag (fst fv)) (rev opts));
        destruct (find (fun fv => negb (is_path_flag (fst fv))) (rev opts));
        cbn; rewrite ?Ep; reflexivity.
Qed.

Lemma ParseArguments_from_parsed (argv : list str) (n : nat) :
  forall args result,
    length argv <= n ->
    ParseArguments_from argv args = Parsed result ->
    exists opts, argv = flatten_options opts /\ Forall valid_option opts.
Proof.
  revert argv. induction n as [|n IH]; intros argv args result Hn H.
  - destruct argv; [|simpl in Hn; lia].
    exists []. split; [reflexivity | constructor].
  - destruct argv as [|a [|v rest]]; cbn [ParseArguments_from] in H.
    + exists []. split; [reflexivity | constructor].
    + destruct (is_path_flag a); [discriminate|].
      destruct (is_out_flag a); discriminate.
    + assert (Hv : valid_option (a, v) /\
                   exists args', ParseArguments_from rest args' = Parsed result).
      { unfold valid_option. simpl fst.
        destruct (is_path_flag a); [split; [reflexivity | eauto]|].
        destruct (is_out_flag a); [split; [reflexivity | eauto]|].
        discriminate. }
      destruct Hv as [Hv [args' H']].
      apply IH in H'; [|simpl in Hn; lia].
      destruct H' as (opts & -> & Hopts).
      exists ((a, v) :: opts). split; [reflexivity|].
      constructor; assumption.
Qed.

(** [ParseArguments] returns exactly on the command lines that are made of
    options, each one of "-p", "--path" and "--out" followed by a value,
    which is taken as it stands; the path is then the value of the last
    "-p" or "--path", "." without one, and the output file the value of
    the last "--out", if any. *)
Theorem ParseArguments_options :
  (forall prog opts,
      Forall valid_option opts ->
      ParseArguments (prog :: flatten_options opts) =
      Parsed (Args.mk
                (match last_value is_path_flag opts with
                 | Some v => v
                 | None => lit "."
                 end)
                (last_value is_out_flag opts))) /\
  (forall argv args,
      ParseArguments argv = Parsed args ->
      exists opts,
        tl argv = flatten_options opts /\ Forall valid_option opts).
Proof.
  split.
  - intros prog opts Hv. unfold ParseArguments. simpl tl.
    rewrite <- (app_nil_r (flatten_options opts)).
    rewrite (ParseArguments_from_options opts Hv). cbn [ParseArguments_from].
    f_equal. f_equal. cbn [Args.out].
    assert (E : last_value (fun a => negb (is_path_flag a)) opts =
                last_value is_out_flag opts).
    { unfold last_value. f_equal. apply find_agree.
      intros [f v] Hin. simpl fst. apply in_rev in Hin.
      rewrite Forall_forall in Hv. specialize (Hv _ Hin).
      unfold valid_option in Hv. simpl fst in Hv.
      destruct (is_path_flag f) eqn:Ep; simpl in *; [|congruence].
      unfold is_path_flag, is_out_flag in *.
      apply orb_true_iff in Ep.
      destruct Ep as [Ep | Ep]; apply str_eqb_eq in Ep; subst f;
        reflexivity. }
    rewrite E. destruct (last_value is_out_flag opts); reflexivity.
  - intros argv args H. unfold ParseArguments in H.
    eapply ParseArguments_from_parsed; [|exact H]. apply Nat.le_refl.
Qed.

Lemma ParseArguments_options_witness :
  Forall valid_option [(lit "-p", lit "a"); (lit "--out", lit "-p");
                       (lit "--path", lit "b")] /\
  ParseArguments
    (lit "scan" ::
     flatten_options [(lit "-p", lit "a"); (lit "--out", lit "-p");
                      (lit "--path", lit "b")])
  = Parsed (Args.mk (lit "b") (Some (lit "-p"))).
Proof.
  assert (H : Forall valid_option
                [(lit "-p", lit "a"); (lit "--out", lit "-p");
                 (lit "--path", lit "b")])
    by (repeat constructor).
  split; [exact H|].
  apply (proj1 ParseArguments_options (lit "scan") _ H).
Defined.

(** The first argument that is no option ends the program: an unknown flag
    and a flag without its value are reported on [std::cerr], whatever
    options precede them. *)
Theorem ParseArguments_errors (prog : str) (opts : list (str * str)) :
  Forall valid_option opts ->
  (forall a rest,
      is_path_flag a = false -> is_out_flag a = false ->
      ParseArguments (prog :: flatten_options opts ++ a :: rest) =
      Exit1 (lit "Unknown argument: " ++ a ++ [LF])) /\
  (forall a,
      is_path_flag a = true ->
      ParseArguments (prog :: flatten_options opts ++ [a]) =
      Exit1 (lit "Error: missing value for " ++ a ++ [LF])) /\
  ParseArguments (prog :: flatten_options opts ++ [lit "--out"]) =
  Exit1 (lit "Error: missing value for --out" ++ [LF]).
Proof.
  intros Hv. unfold ParseArguments. simpl tl.
  split; [|split].
  - intros a rest Hp Ho.
    rewrite (ParseArguments_from_options opts Hv).
    cbn [ParseArguments_from]. rewrite Hp, Ho. reflexivity.
  - intros a Hp.
    rewrite (ParseArguments_from_options opts Hv).
    cbn [ParseArguments_from]. rewrite Hp. reflexivity.
  - rewrite (ParseArguments_from_options opts Hv). reflexivity.
Qed.

Lemma ParseArguments_errors_witness :
  Forall valid_option [(lit "--out", lit "x")] /\
  ParseArguments
    (lit "scan" :: flatten_options [(lit "--out", lit "x")] ++ [lit "--out"])
  = Exit1 (lit "Error: missing value for --out" ++ [LF]).
Proof.
  assert (H : Forall valid_option [(lit "--out", lit "x")])
    by (repeat constructor).
  split; [exact H|].
  apply (proj2 (proj2 (ParseArguments_errors (lit "scan") _ H))).
Defined.

(** ** [PrintFile] *)




(** ** [FindAndPrintFiles] *)

Lemma entries_dirs_cons (name : str) (node : fsnode)
    (rest : list (str * fsnode)) :
  entries_dirs ((name, node) :: rest) = dir_count node + entries_dirs rest.
Proof. reflexivity. Qed.

Lemma IsIgnored_total (patterns : list Pattern) (rel : str) (is_dir : bool) :
  exists b, IsIgnored patterns rel is_dir = Ok b.
Proof.
  rewrite IsIgnored_last_match. eexists; reflexivity.
Qed.

Lemma direct_event_cons patterns dir_rel name node rest e :
  direct_event patterns dir_rel ((name, node) :: rest) e <->
  (IsIgnored patterns (child_rel dir_rel name) (is_dir_node node) = Ok false /\
   event_of (child_rel dir_rel name) node = Some e) \/
  direct_event patterns dir_rel rest e.
Proof.
  unfold direct_event. split.
  - intros (n & nd & [[= <- <-] | Hin] & Hi & He).
    + left. split; assumption.
    + right. exists n, nd. repeat split; assumption.
  - intros [[Hi He] | (n & nd & Hin & Hi & He)].
    + exists name, node. repeat split; [left; reflexivity | |]; assumption.
    + exists n, nd. repeat split; [right|..]; assumption.
Qed.

Lemma direct_dir_cons patterns dir_rel name node rest item :
  direct_dir patterns dir_rel ((name, node) :: rest) item <->
  (exists sub, node = FsDir sub /\
     IsIgnored patterns (child_rel dir_rel name) true = Ok false /\
     item = (Some (child_rel dir_rel name), sub)) \/
  direct_dir patterns dir_rel rest item.
Proof.
  unfold direct_dir. split.
  - intros (n & sub & [[= <- ->] | Hin] & Hi & He).
    + left. exists sub. repeat split; assumption.
    + right. exists n, sub. repeat split; assumption.
  - intros [(sub & -> & Hi & He) | (n & sub & Hin & Hi & He)].
    + exists name, sub. repeat split; [left; reflexivity | |]; assumption.
    + exists n, sub. repeat split; [right|..]; assumption.
Qed.

(** One pass of the [for] loop: what it appends to [out] and what it pushes
    on the stack. *)
Lemma visit_entries_spec patterns dir_rel (entries : list (str * fsnode)) :
  forall dirs out dirs1 out1,
    visit_entries patterns dir_rel entries dirs out = Ok (dirs1, out1) ->
    stack_dirs dirs1 <= stack_dirs dirs + entries_dirs entries /\
    (forall e, In e out1 <->
               In e out \/ direct_event patterns dir_rel entries e) /\
    (forall item, In item dirs1 <->
                  In item dirs \/ direct_dir patterns dir_rel entries item).
Proof.
  induction entries as [|[name node] rest IH]; intros dirs out dirs1 out1 H.
  - injection H as <- <-. split; [lia|].
    split; intros x; (split; [intros Hx; left; exact Hx|]);
      intros [Hx | (n & nd & [] & _)]; exact Hx.
  - cbn [visit_entries] in H. rewrite entries_dirs_cons.
    destruct (IsIgnored_total patterns (child_rel dir_rel name)
                (is_dir_node node)) as [ign Hign].
    rewrite Hign in H. cbn [bind] in H.
    assert (Hskip :
      (forall e, event_of (child_rel dir_rel name) node = Some e -> ign = true) ->
      (forall sub, node = FsDir sub -> ign = true) ->
      visit_entries patterns dir_rel rest dirs out = Ok (dirs1, out1) ->
      stack_dirs dirs1 <= stack_dirs dirs + (dir_count node + entries_dirs rest) /\
      (forall e, In e out1 <->
         In e out \/ direct_event patterns dir_rel ((name, node) :: rest) e) /\
      (forall item, In item dirs1 <->
         In item dirs \/
         direct_dir patterns dir_rel ((name, node) :: rest) item)).
    { intros He Hd H'. apply IH in H'. destruct H' as (Hm & Ho & Hs).
      split; [lia|]. split.
      - intros e. rewrite Ho, direct_event_cons. split.
        + intros [Hx | Hx]; [left | right; right]; exact Hx.
        + intros [Hx | [[Hi Hev] | Hx]]; [left; exact Hx | | right; exact Hx].
          specialize (He e Hev). congruence.
      - intros item. rewrite Hs, direct_dir_cons. split.
        + intros [Hx | Hx]; [left | right; right]; exact Hx.
        + intros [Hx | [(sub & Hn & Hi & _) | Hx]];
            [left; exact Hx | | right; exact Hx].
          specialize (Hd sub Hn). subst node. simpl in Hign. congruence. }
    destruct ign.
    { apply Hskip; [reflexivity | reflexivity | exact H]. }
    destruct node as [canonical is_self contents | sub |].
    + (* a regular file *)
      assert (Hemit : forall ev,
        event_of (child_rel dir_rel name) (FsFile canonical is_self contents)
        = Some ev ->
        visit_entries patterns dir_rel rest dirs (out ++ [ev])
        = Ok (dirs1, out1) ->
        stack_dirs dirs1 <=
          stack_dirs dirs +
          (dir_count (FsFile canonical is_self contents) + entries_dirs rest) /\
        (forall e, In e out1 <->
           In e out \/
           direct_event patterns dir_rel
             ((name, FsFile canonical is_self contents) :: rest) e) /\
        (forall item, In item dirs1 <->
           In item dirs \/
           direct_dir patterns dir_rel
             ((name, FsFile canonical is_self contents) :: rest) item)).
      { intros ev Hev H'. apply IH in H'. destruct H' as (Hm & Ho & Hs).
        split; [simpl; lia|]. split.
        - intros e. rewrite Ho, direct_event_cons, in_app_iff. split.
          + intros [[Hx | [<- | []]] | Hx];
              [left; exact Hx | right; left; split; assumption
               | right; right; exact Hx].
          + intros [Hx | [[_ Hx] | Hx]];
              [left; left; exact Hx | | right; exact Hx].
            left. right. left. congruence.
        - intros item. rewrite Hs, direct_dir_cons. split.
          + intros [Hx | Hx]; [left | right; right]; exact Hx.
          + intros [Hx | [(sub & Hn & _) | Hx]];
              [left; exact Hx | discriminate Hn | right; exact Hx]. }
      destruct is_self.
      { apply Hskip; [intros e; destruct canonical; discriminate
                     | discriminate | exact H]. }
      destruct contents as [c|].
      * destruct canonical as [cp|]; [|discriminate].
        apply (Hemit (Dumped (child_rel dir_rel name) cp c));
          [reflexivity | exact H].
      * apply (Hemit (OpenError (child_rel dir_rel name)));
          [destruct canonical; reflexivity | exact H].
    + (* a directory is pushed *)
      apply IH in H. destruct H as (Hm & Ho & Hs).
      split.
      { unfold stack_dirs in *. simpl in *. unfold entries_dirs in *.
        simpl in *. lia. }
      split.
      * intros e. rewrite Ho, direct_event_cons. split.
        -- intros [Hx | Hx]; [left | right; right]; exact Hx.
        -- intros [Hx | [[_ Hx] | Hx]];
             [left; exact Hx | discriminate Hx | right; exact Hx].
      * intros item. rewrite Hs, direct_dir_cons. split.
        -- intros [[<- | Hx] | Hx];
             [right; left; exists sub; repeat split; assumption
             | left; exact Hx | right; right; exact Hx].
        -- intros [Hx | [(sub' & [= <-] & _ & ->) | Hx]];
             [left; right; exact Hx | left; left; reflexivity
             | right; exact Hx].
    + apply Hskip; [discriminate | discriminate | exact H].
Qed.

Lemma reached_unfold patterns (item : pending) (e : event) :
  reached patterns item e <->
  direct_event patterns (fst item) (snd item) e \/
  exists sub, direct_dir patterns (fst item) (snd item) sub /\
              reached patterns sub e.
Proof.
  unfold reached. split.
  - intros (rel & node & Hv & He).
    inversion Hv as [dr es name nd Hin Hi | dr es name sub r nd Hin Hi Hsub];
      subst.
    + left. exists name, node. repeat split; assumption.
    + right. exists (Some (child_rel (fst item) name), sub). split.
      * exists name, sub. repeat split; assumption.
      * exists rel, node. split; assumption.
  - intros [(name & node & Hin & Hi & He)
           | (sub & (name & es & Hin & Hi & ->) & rel & node & Hv & He)].
    + exists (child_rel (fst item) name), node.
      split; [apply vis_here; assumption | exact He].
    + exists rel, node. split; [|exact He].
      eapply vis_below; eassumption.
Qed.


Lemma walk_loop_events patterns (fuel : nat) :
  forall dirs out events,
    walk_loop fuel patterns dirs out = Ok events ->
    forall e,
      In e events <->
      In e out \/ exists item, In item dirs /\ reached patterns item e.
Proof.
  induction fuel as [|fuel IH]; intros dirs out events H e; [discriminate|].
  cbn [walk_loop] in H. destruct dirs as [|[dir_rel entries] dirs].
  - injection H as <-. split; [intros Hx; left; exact Hx|].
    intros [Hx | (item & [] & _)]. exact Hx.
  - destruct (visit_entries patterns dir_rel entries dirs out)
      as [[dirs1 out1]| |] eqn:Ev; cbn [bind fst snd] in H; try discriminate.
    apply visit_entries_spec in Ev. destruct Ev as (_ & Ho & Hs).
    rewrite (IH _ _ _ H e), Ho. split.
    + intros [[Hx | Hx] | (item & Hin & Hr)].
      * left. exact Hx.
      * right. exists (dir_rel, entries). split; [left; reflexivity|].
        apply reached_unfold. left. exact Hx.
      * apply Hs in Hin. destruct Hin as [Hin | Hin].
        -- right. exists item. split; [right; exact Hin | exact Hr].
        -- right. exists (dir_rel, entries). split; [left; reflexivity|].
           apply reached_unfold. right. exists item. split; assumption.
    + intros [Hx | (item & [<- | Hin] & Hr)].
      * left. left. exact Hx.
      * apply reached_unfold in Hr.
        destruct Hr as [Hr | (sub & Hd & Hr)].
        -- left. right. exact Hr.
        -- right. exists sub. split; [|exact Hr].
           apply Hs. right. exact Hd.
      * right. exists item. split; [|exact Hr]. apply Hs. left. exact Hin.
Qed.



(** The walk emits the regular files it reaches and nothing else: an entry
    is dumped, or reported as unreadable, exactly when it is a regular
    file other than the program itself that is not ignored and that lies
    below no ignored directory. *)
Theorem FindAndPrintFiles_events (gitignore : option str)
    (root : list (str * fsnode)) (patterns : list Pattern)
    (events : list event) :
  LoadGitignoreSpec gitignore = Ok patterns ->
  FindAndPrintFiles gitignore root = Ok events ->
  forall e,
    In e events <->
    exists rel node,
      visible patterns None root rel node /\ event_of rel node = Some e.
Proof.
  intros Hp H e. unfold FindAndPrintFiles in H. rewrite Hp in H.
  cbn [bind] in H.
  rewrite (walk_loop_events _ _ _ _ _ H e). split.
  - intros [[] | (item & [<- | []] & Hr)]. exact Hr.
  - intros Hr. right. exists (None, root). split; [left; reflexivity|].
    exact Hr.
Qed.

Lemma FindAndPrintFiles_events_witness :
  LoadGitignoreSpec (Some (lit "build/")) = Ok [mkPattern (lit "build") false true false] /\
  FindAndPrintFiles (Some (lit "build/"))
    [(lit "build", FsDir [(lit "x.o", FsFile (Some (lit "/r/build/x.o")) false (Some (lit "1")))]);
     (lit "a.c", FsFile (Some (lit "/r/a.c")) false (Some (lit "2")))]
  = Ok [Dumped (lit "a.c") (lit "/r/a.c") (lit "2")] /\
  (In (Dumped (lit "a.c") (lit "/r/a.c") (lit "2"))
      [Dumped (lit "a.c") (lit "/r/a.c") (lit "2")] <->
   exists rel node,
     visible [mkPattern (lit "build") false true false] None
       [(lit "build", FsDir [(lit "x.o", FsFile (Some (lit "/r/build/x.o")) false (Some (lit "1")))]);
        (lit "a.c", FsFile (Some (lit "/r/a.c")) false (Some (lit "2")))]
       rel node /\
     event_of rel node = Some (Dumped (lit "a.c") (lit "/r/a.c") (lit "2"))).
Proof.
  split; [reflexivity|]. split; [reflexivity|].
  apply (FindAndPrintFiles_events (Some (lit "build/")) _
           [mkPattern (lit "build") false true false]
           [Dumped (lit "a.c") (lit "/r/a.c") (lit "2")]);
    reflexivity.
Defined.



Lemma visit_entries_order patterns dir_rel (entries : list (str * fsnode)) :
  forall dirs out dirs1 out1,
    visit_entries patterns dir_rel entries dirs out = Ok (dirs1, out1) ->
    dirs1 = rev (subdirs_here patterns dir_rel entries) ++ dirs /\
    out1 = out ++ files_here patterns dir_rel entries.
Proof.
  induction entries as [|[name node] rest IH]; intros dirs out dirs1 out1 H.
  - injection H as <- <-. rewrite app_nil_r. split; reflexivity.
  - cbn [visit_entries files_here subdirs_here] in *.
    destruct (IsIgnored_total patterns (child_rel dir_rel name)
                (is_dir_node node)) as [ign Hign].
    rewrite Hign in *. cbn [bind] in H.
    destruct ign.
    { destruct (event_of (child_rel dir_rel name) node); apply IH; exact H. }
    destruct node as [canonical is_self contents | sub |].
    + destruct is_self.
      { destruct canonical; apply IH; exact H. }
      destruct contents as [c|].
      * destruct canonical as [cp|]; [|discriminate].
        apply IH in H. destruct H as [-> ->].
        cbn [event_of]. rewrite <- app_assoc. split; reflexivity.
      * apply IH in H. destruct H as [-> ->].
        replace (event_of (child_rel dir_rel name) (FsFile canonical false None))
          with (Some (OpenError (child_rel dir_rel name)))
          by (destruct canonical; reflexivity).
        rewrite <- app_assoc. split; reflexivity.
    + apply IH in H. destruct H as [-> ->].
      cbn [event_of rev]. rewrite <- app_assoc. split; reflexivity.
    + apply IH. exact H.
Qed.

Lemma walk_loop_order patterns (fuel : nat) :
  forall dirs out events,
    walk_loop fuel patterns dirs out = Ok events ->
    exists below,
      Forall2 (dfs_events patterns) dirs below /\
      events = out ++ concat below.
Proof.
  induction fuel as [|fuel IH]; intros dirs out events H; [discriminate|].
  cbn [walk_loop] in H. destruct dirs as [|[dir_rel entries] dirs].
  - injection H as <-. exists []. split; [constructor|].
    rewrite app_nil_r. reflexivity.
  - destruct (visit_entries patterns dir_rel entries dirs out)
      as [[dirs1 out1]| |] eqn:Ev; cbn [bind fst snd] in H; try discriminate.
    apply visit_entries_order in Ev. destruct Ev as [-> ->].
    apply IH in H. destruct H as (below & Hb & ->).
    apply Forall2_app_inv_l in Hb.
    destruct Hb as (b1 & b2 & Hb1 & Hb2 & ->).
    exists ((files_here patterns dir_rel entries ++ concat b1) :: b2).
    split.
    + constructor; [|exact Hb2].
      apply (@dfs_dir patterns (dir_rel, entries) b1). exact Hb1.
    + rewrite concat_app. cbn [concat]. rewrite <- !app_assoc. reflexivity.
Qed.

(** The order of the output is depth first: the files of a directory come
    out in the order of its entries, each once, before anything of its
    subdirectories, and the subdirectories are gone through from the last
    one met to the first. *)
Theorem FindAndPrintFiles_order (gitignore : option str)
    (root : list (str * fsnode)) (patterns : list Pattern)
    (events : list event) :
  LoadGitignoreSpec gitignore = Ok patterns ->
  FindAndPrintFiles gitignore root = Ok events ->
  dfs_events patterns (None, root) events.
Proof.
  intros Hp H. unfold FindAndPrintFiles in H. rewrite Hp in H.
  cbn [bind] in H. apply walk_loop_order in H.
  destruct H as (below & Hb & ->).
  inversion Hb as [|? ? ? ? Hd Hnil]; subst.
  inversion Hnil; subst. cbn [concat app].
  rewrite app_nil_r. exact Hd.
Qed.

Lemma FindAndPrintFiles_order_witness :
  LoadGitignoreSpec None = Ok [] /\
  FindAndPrintFiles None
    [(lit "d", FsDir [(lit "x", FsFile (Some (lit "/r/d/x")) false (Some []))]);
     (lit "a", FsFile (Some (lit "/r/a")) false (Some []))]
  = Ok [Dumped (lit "a") (lit "/r/a") []; Dumped (lit "d/x") (lit "/r/d/x") []] /\
  dfs_events [] (None,
    [(lit "d", FsDir [(lit "x", FsFile (Some (lit "/r/d/x")) false (Some []))]);
     (lit "a", FsFile (Some (lit "/r/a")) false (Some []))])
    [Dumped (lit "a") (lit "/r/a") []; Dumped (lit "d/x") (lit "/r/d/x") []].
Proof.
  split; [reflexivity|]. split; [reflexivity|].
  apply (FindAndPrintFiles_order None _ [] _); reflexivity.
Defined.
